(** * nheko cache engine (src/Cache.cpp): a shallow embedding

    The cache keeps its data in LMDB tables and mirrors the megolm sessions
    in memory.  The embedding follows Cache.cpp function by function.

    Conventions:
    - an LMDB table is a finite map from keys to values; a cursor walks it in
      the order of the table's key comparison ([ordered_entries]);
    - a stored byte string is seen through the decoder that the code applies
      to it ([blob]): either it is the encoding of a value, or it is garbled
      and the decoder throws;
    - a C++ exception that leaves a function is a [Throw] result ([res]);
      engine failures ([lmdb::error]) are not modelled: table operations
      succeed;
    - [uint64_t] time stamps are [N] (no arithmetic is done on them), [int]
      and [uint16_t] levels are [Z] with the conversion written out. *)

From Stdlib Require Import String Ascii ZArith NArith Lia.
From stdpp Require Import base option list sorting gmap strings fin_maps.

Local Open Scope string_scope.

(** ** Exceptions *)

(** [null_session] stands for handing a null session to the olm library,
    which is undefined behaviour: the embedding stops there. *)
Inductive exn := json_exception | olm_exception | null_session.

Inductive res (A : Type) : Type :=
| Ret (a : A)
| Throw (e : exn).
Arguments Ret {A} a.
Arguments Throw {A} e.

Global Instance res_ret : MRet res := λ A a, Ret a.
Global Instance res_bind : MBind res := λ A B f m,
  match m with
  | Ret a => f a
  | Throw e => Throw e
  end.

Global Instance res_fmap : FMap res := λ A B f m,
  match m with
  | Ret a => Ret (f a)
  | Throw e => Throw e
  end.

(** ** Stored values *)

(** The bytes kept under a key, as the decoder of the table sees them:
    [Encoded a] is what serialising [a] writes ([json(a).dump()], [pickle]),
    [Garbled bytes] is anything that the decoder rejects. *)
Inductive blob (A : Type) : Type :=
| Encoded (a : A)
| Garbled (bytes : string).
Arguments Encoded {A} a.
Arguments Garbled {A} bytes.

Global Instance blob_eq_dec `{EqDecision A} : EqDecision (blob A).
Proof. solve_decision. Defined.

(** [json::parse] followed by the conversion to the expected type *)
Definition json_parse {A} (b : blob A) : res A :=
  match b with
  | Encoded a => Ret a
  | Garbled _ => Throw json_exception
  end.

(** [mtx::crypto::unpickle<T>(data, SECRET)] throws on a bad pickle *)
Definition unpickle {A} (b : blob A) : res A :=
  match b with
  | Encoded a => Ret a
  | Garbled _ => Throw olm_exception
  end.

(** [mtx::crypto::pickle<T>(session, SECRET)] *)
Definition pickle {A} (session : A) : blob A := Encoded session.

(** ** Ordered walks: LMDB cursors and [std::map] iteration *)

Section ordered.
Context `{Countable K} {V : Type} (le : K → K → bool).

Definition key_le : relation (K * V) := λ a b, Is_true (le a.1 b.1).

Global Instance key_le_dec a b : Decision (key_le a b).
Proof. unfold key_le. apply _. Defined.

(** the entries met by [cursor.get(k, v, MDB_NEXT)] until it fails, and
    those met by a range-for over a [std::map] *)
Definition ordered_entries (db : gmap K V) : list (K * V) :=
  merge_sort key_le (map_to_list db).
End ordered.

(** default LMDB key order and [std::map<std::string, _>] order *)
Definition bytes_le : string → string → bool := String.leb.

(** [std::map::operator[]]: a missing key is inserted with a default value *)
Definition subscript `{Countable K} {V} (dflt : V) (k : K) (m : gmap K V)
  : gmap K V * V :=
  match m !! k with
  | Some v => (m, v)
  | None => (<[k := dflt]> m, dflt)
  end.

(** [std::multimap::emplace] under the strict order [lt]: the new element goes
    after every element that is not ordered after it *)
Fixpoint multimap_emplace {K V} (lt : K → K → bool) (k : K) (v : V)
    (items : list (K * V)) : list (K * V) :=
  match items with
  | [] => [(k, v)]
  | (k', v') :: rest =>
      if lt k k' then (k, v) :: (k', v') :: rest
      else (k', v') :: multimap_emplace lt k v rest
  end.

(** ** Data model *)

Record ReadReceiptKey := { event_id : string; room_id : string }.

Global Instance ReadReceiptKey_eq_dec : EqDecision ReadReceiptKey.
Proof. solve_decision. Defined.

Global Instance ReadReceiptKey_countable : Countable ReadReceiptKey.
Proof.
  refine (inj_countable' (λ k, (event_id k, room_id k))
            (λ p, {| event_id := p.1; room_id := p.2 |}) _).
  by intros [].
Defined.

(** Modelled from the spec: RoomInfo is declared in Cache.h; the fields are
    those of the data model ("name, topic, avatar_url, is_invite, join_rule,
    guest_access, member_count"). *)
Record RoomInfo := {
  name : string;
  topic : string;
  avatar_url : string;
  is_invite : bool;
  join_rule : string;
  guest_access : bool;
  member_count : N;
}.

(** Modelled from the spec: the power-levels content comes from the protocol
    library.  "computes the user's level (default: the content's defined
    default user level) and the minimum required level across all given
    event types (default: the content's defined default state level)". *)
Record PowerLevels := {
  users : gmap string Z;
  events : gmap string Z;
  users_default : Z;
  state_default : Z;
}.

Definition user_level (pl : PowerLevels) (user_id : string) : Z :=
  default (users_default pl) (users pl !! user_id).

Definition state_level (pl : PowerLevels) (event_type : string) : Z :=
  default (state_default pl) (events pl !! event_type).

(** what a room's state table holds under an event type *)
Inductive StateEvent :=
| PowerLevelsEvent (content : PowerLevels)
| OtherStateEvent (content : string).

(** the olm session objects are opaque to the cache *)
Record OlmInboundGroupSession := { inbound_state : string }.
Record OlmOutboundGroupSession := { outbound_state : string }.

Global Instance OlmInboundGroupSession_eq_dec : EqDecision OlmInboundGroupSession.
Proof. solve_decision. Defined.
Global Instance OlmOutboundGroupSession_eq_dec : EqDecision OlmOutboundGroupSession.
Proof. solve_decision. Defined.

(** Modelled from the spec: OutboundGroupSessionData is declared in Cache.h;
    "rotation_metadata(message_index, creation_time, shared_with)". *)
Record OutboundGroupSessionData := {
  message_index : Z;
  creation_time : Z;
  shared_with : list string;
}.

Definition default_session_data : OutboundGroupSessionData :=
  {| message_index := 0; creation_time := 0; shared_with := [] |}.

(** the JSON object kept per room in the outbound session table: [j["data"]]
    and [j["session"]].  A member is [None] when [obj.at] or the conversion
    throws a json exception; the session member is a pickle. *)
Record outbound_json := {
  data_member : option OutboundGroupSessionData;
  session_member : option (blob OlmOutboundGroupSession);
}.

(** the timeline events come from the protocol library *)
Record TimelineEvent := { event_json : string }.

(** the JSON object kept per message: [obj["event"]] and [obj["token"]];
    [None] is a missing member ([obj.count(..) == 0]) *)
Record message_json := {
  event_member : option (blob TimelineEvent);
  token_member : option (blob string);
}.

(** the in-memory mirrors; a [std::unique_ptr] may be null ([None]) *)
Record SessionStorage := {
  group_inbound_sessions : gmap string (option OlmInboundGroupSession);
  group_outbound_sessions : gmap string (option OlmOutboundGroupSession);
  group_outbound_session_data : gmap string OutboundGroupSessionData;
}.

Record Cache := {
  syncStateDb : gmap string string;
  roomsDb : gmap string (blob RoomInfo);
  mediaDb : gmap string string;
  readReceiptsDb : gmap ReadReceiptKey (blob (gmap string N));
  (** keys of the pending-receipts table in cursor order; the values are
      empty strings *)
  pendingReceiptsDb : list (blob ReadReceiptKey);
  inboundMegolmSessionDb : gmap string (blob OlmInboundGroupSession);
  outboundMegolmSessionDb : gmap string (blob outbound_json);
  (** per-room tables, created when first opened *)
  statesDbs : gmap string (gmap string (blob StateEvent));
  messagesDbs : gmap string (gmap N (blob message_json));
  session_storage : SessionStorage;
}.

Definition set_syncStateDb (v : gmap string string) (c : Cache) : Cache :=
  {| syncStateDb := v; roomsDb := roomsDb c; mediaDb := mediaDb c;
     readReceiptsDb := readReceiptsDb c;
     pendingReceiptsDb := pendingReceiptsDb c;
     inboundMegolmSessionDb := inboundMegolmSessionDb c;
     outboundMegolmSessionDb := outboundMegolmSessionDb c;
     statesDbs := statesDbs c; messagesDbs := messagesDbs c;
     session_storage := session_storage c |}.

Definition set_readReceiptsDb (v : gmap ReadReceiptKey (blob (gmap string N)))
    (c : Cache) : Cache :=
  {| syncStateDb := syncStateDb c; roomsDb := roomsDb c; mediaDb := mediaDb c;
     readReceiptsDb := v;
     pendingReceiptsDb := pendingReceiptsDb c;
     inboundMegolmSessionDb := inboundMegolmSessionDb c;
     outboundMegolmSessionDb := outboundMegolmSessionDb c;
     statesDbs := statesDbs c; messagesDbs := messagesDbs c;
     session_storage := session_storage c |}.

Definition set_pendingReceiptsDb (v : list (blob ReadReceiptKey))
    (c : Cache) : Cache :=
  {| syncStateDb := syncStateDb c; roomsDb := roomsDb c; mediaDb := mediaDb c;
     readReceiptsDb := readReceiptsDb c;
     pendingReceiptsDb := v;
     inboundMegolmSessionDb := inboundMegolmSessionDb c;
     outboundMegolmSessionDb := outboundMegolmSessionDb c;
     statesDbs := statesDbs c; messagesDbs := messagesDbs c;
     session_storage := session_storage c |}.

Definition set_inboundMegolmSessionDb
    (v : gmap string (blob OlmInboundGroupSession)) (c : Cache) : Cache :=
  {| syncStateDb := syncStateDb c; roomsDb := roomsDb c; mediaDb := mediaDb c;
     readReceiptsDb := readReceiptsDb c;
     pendingReceiptsDb := pendingReceiptsDb c;
     inboundMegolmSessionDb := v;
     outboundMegolmSessionDb := outboundMegolmSessionDb c;
     statesDbs := statesDbs c; messagesDbs := messagesDbs c;
     session_storage := session_storage c |}.

Definition set_outboundMegolmSessionDb (v : gmap string (blob outbound_json))
    (c : Cache) : Cache :=
  {| syncStateDb := syncStateDb c; roomsDb := roomsDb c; mediaDb := mediaDb c;
     readReceiptsDb := readReceiptsDb c;
     pendingReceiptsDb := pendingReceiptsDb c;
     inboundMegolmSessionDb := inboundMegolmSessionDb c;
     outboundMegolmSessionDb := v;
     statesDbs := statesDbs c; messagesDbs := messagesDbs c;
     session_storage := session_storage c |}.

Definition set_statesDbs (v : gmap string (gmap string (blob StateEvent)))
    (c : Cache) : Cache :=
  {| syncStateDb := syncStateDb c; roomsDb := roomsDb c; mediaDb := mediaDb c;
     readReceiptsDb := readReceiptsDb c;
     pendingReceiptsDb := pendingReceiptsDb c;
     inboundMegolmSessionDb := inboundMegolmSessionDb c;
     outboundMegolmSessionDb := outboundMegolmSessionDb c;
     statesDbs := v; messagesDbs := messagesDbs c;
     session_storage := session_storage c |}.

Definition set_messagesDbs (v : gmap string (gmap N (blob message_json)))
    (c : Cache) : Cache :=
  {| syncStateDb := syncStateDb c; roomsDb := roomsDb c; mediaDb := mediaDb c;
     readReceiptsDb := readReceiptsDb c;
     pendingReceiptsDb := pendingReceiptsDb c;
     inboundMegolmSessionDb := inboundMegolmSessionDb c;
     outboundMegolmSessionDb := outboundMegolmSessionDb c;
     statesDbs := statesDbs c; messagesDbs := v;
     session_storage := session_storage c |}.

Definition set_session_storage (v : SessionStorage) (c : Cache) : Cache :=
  {| syncStateDb := syncStateDb c; roomsDb := roomsDb c; mediaDb := mediaDb c;
     readReceiptsDb := readReceiptsDb c;
     pendingReceiptsDb := pendingReceiptsDb c;
     inboundMegolmSessionDb := inboundMegolmSessionDb c;
     outboundMegolmSessionDb := outboundMegolmSessionDb c;
     statesDbs := statesDbs c; messagesDbs := messagesDbs c;
     session_storage := v |}.

(** a store right after [setup()]: every table empty, nothing mirrored *)
Definition fresh_cache : Cache :=
  {| syncStateDb := ∅; roomsDb := ∅; mediaDb := ∅; readReceiptsDb := ∅;
     pendingReceiptsDb := []; inboundMegolmSessionDb := ∅;
     outboundMegolmSessionDb := ∅; statesDbs := ∅; messagesDbs := ∅;
     session_storage :=
       {| group_inbound_sessions := ∅; group_outbound_sessions := ∅;
          group_outbound_session_data := ∅ |} |}.

(** [getStatesDb] / [getMessagesDb]: open a per-room table, creating it
    empty when it does not exist ([MDB_CREATE]) *)
Definition open_table `{Countable K} {V} (room : string)
    (tables : gmap string (gmap K V)) : gmap string (gmap K V) * gmap K V :=
  match tables !! room with
  | Some t => (tables, t)
  | None => (<[room := ∅]> tables, ∅)
  end.

(** ** Format check (Cache.cpp 616-653) *)

Definition CURRENT_CACHE_FORMAT_VERSION : string := "2018.06.10".
Definition CACHE_FORMAT_VERSION_KEY : string := "cache_format_version".

Definition isFormatValid (c : Cache) : bool :=
  match syncStateDb c !! CACHE_FORMAT_VERSION_KEY with
  | None => true
  | Some stored_version =>
      if decide (stored_version ≠ CURRENT_CACHE_FORMAT_VERSION)
      then false else true
  end.

Definition setCurrentFormat (c : Cache) : Cache :=
  set_syncStateDb
    (<[CACHE_FORMAT_VERSION_KEY := CURRENT_CACHE_FORMAT_VERSION]> (syncStateDb c)) c.

(** ** Session management (Cache.cpp 222-324, 396-444) *)

Record MegolmSessionIndex := {
  index_room_id : string;
  index_session_id : string;
  index_sender_key : string;
}.

Definition set_group_inbound_sessions
    (v : gmap string (option OlmInboundGroupSession)) (st : SessionStorage)
  : SessionStorage :=
  {| group_inbound_sessions := v;
     group_outbound_sessions := group_outbound_sessions st;
     group_outbound_session_data := group_outbound_session_data st |}.

Definition set_group_outbound_sessions
    (v : gmap string (option OlmOutboundGroupSession)) (st : SessionStorage)
  : SessionStorage :=
  {| group_inbound_sessions := group_inbound_sessions st;
     group_outbound_sessions := v;
     group_outbound_session_data := group_outbound_session_data st |}.

Definition set_group_outbound_session_data
    (v : gmap string OutboundGroupSessionData) (st : SessionStorage)
  : SessionStorage :=
  {| group_inbound_sessions := group_inbound_sessions st;
     group_outbound_sessions := group_outbound_sessions st;
     group_outbound_session_data := v |}.

(** [pickle] on the raw pointer of a [unique_ptr] *)
Definition pickle_ptr {A} (session : option A) : res (blob A) :=
  match session with
  | Some s => Ret (pickle s)
  | None => Throw null_session
  end.

Section inbound_sessions.
(** [MegolmSessionIndex::to_hash] is declared in Cache.h; the code below
    only uses it as a key. *)
Variable to_hash : MegolmSessionIndex → string.

Definition saveInboundMegolmSession (index : MegolmSessionIndex)
    (session : option OlmInboundGroupSession) (c : Cache) : res Cache :=
  let key := to_hash index in
  pickled ← pickle_ptr session;
  let c := set_inboundMegolmSessionDb
             (<[key := pickled]> (inboundMegolmSessionDb c)) c in
  let st := session_storage c in
  Ret (set_session_storage
         (set_group_inbound_sessions
            (<[key := session]> (group_inbound_sessions st)) st) c).

Definition getInboundMegolmSession (index : MegolmSessionIndex) (c : Cache)
  : Cache * option OlmInboundGroupSession :=
  let st := session_storage c in
  let '(sessions, ptr) :=
    subscript None (to_hash index) (group_inbound_sessions st) in
  (set_session_storage (set_group_inbound_sessions sessions st) c, ptr).

Definition inboundMegolmSessionExists (index : MegolmSessionIndex)
    (c : Cache) : bool :=
  bool_decide
    (is_Some (group_inbound_sessions (session_storage c) !! to_hash index)).
End inbound_sessions.

Definition outboundMegolmSessionExists (room : string) (c : Cache) : bool :=
  bool_decide (is_Some (group_outbound_sessions (session_storage c) !! room))
  && bool_decide
       (is_Some (group_outbound_session_data (session_storage c) !! room)).

Definition set_message_index (i : Z) (d : OutboundGroupSessionData)
  : OutboundGroupSessionData :=
  {| message_index := i; creation_time := creation_time d;
     shared_with := shared_with d |}.

Definition updateOutboundMegolmSession (room : string) (new_index : Z)
    (c : Cache) : res Cache :=
  if negb (outboundMegolmSessionExists room c) then Ret c
  else
    let st := session_storage c in
    let '(data_map, data) :=
      subscript default_session_data room (group_outbound_session_data st) in
    let '(sessions, session) :=
      subscript None room (group_outbound_sessions st) in
    (* Update with the current message. *)
    let data := set_message_index new_index data in
    let st := set_group_outbound_session_data (<[room := data]> data_map)
                (set_group_outbound_sessions sessions st) in
    let c := set_session_storage st c in
    (* Save the updated pickled data for the session. *)
    pickled ← pickle_ptr session;
    let j := {| data_member := Some data; session_member := Some pickled |} in
    Ret (set_outboundMegolmSessionDb
           (<[room := Encoded j]> (outboundMegolmSessionDb c)) c).

Definition saveOutboundMegolmSession (room : string)
    (data : OutboundGroupSessionData)
    (session : option OlmOutboundGroupSession) (c : Cache) : res Cache :=
  pickled ← pickle_ptr session;
  let j := {| data_member := Some data; session_member := Some pickled |} in
  let c := set_outboundMegolmSessionDb
             (<[room := Encoded j]> (outboundMegolmSessionDb c)) c in
  let st := session_storage c in
  Ret (set_session_storage
         (set_group_outbound_sessions
            (<[room := session]> (group_outbound_sessions st))
            (set_group_outbound_session_data
               (<[room := data]> (group_outbound_session_data st)) st)) c).

(** The mirrors are written while a record is decoded, so what has been
    written stays when an exception leaves: the walks return the storage
    together with the outcome. *)
Fixpoint restore_inbound (entries : list (string * blob OlmInboundGroupSession))
    (st : SessionStorage) : SessionStorage * res unit :=
  match entries with
  | [] => (st, Ret ())
  | (key, value) :: rest =>
      match unpickle value with
      | Ret session =>
          restore_inbound rest
            (set_group_inbound_sessions
               (<[key := Some session]> (group_inbound_sessions st)) st)
      | Throw e => (st, Throw e)
      end
  end.

(** the body of the [try] block for one outbound record *)
Definition restore_outbound_entry (key : string) (value : blob outbound_json)
    (st : SessionStorage) : SessionStorage * res unit :=
  match json_parse value with
  | Throw e => (st, Throw e)
  | Ret obj =>
      match data_member obj with
      | None => (st, Throw json_exception)
      | Some data =>
          let st := set_group_outbound_session_data
                      (<[key := data]> (group_outbound_session_data st)) st in
          match session_member obj with
          | None => (st, Throw json_exception)
          | Some pickled =>
              match unpickle pickled with
              | Throw e => (st, Throw e)
              | Ret session =>
                  (set_group_outbound_sessions
                     (<[key := Some session]> (group_outbound_sessions st)) st,
                   Ret ())
              end
          end
      end
  end.

Fixpoint restore_outbound (entries : list (string * blob outbound_json))
    (st : SessionStorage) : SessionStorage * res unit :=
  match entries with
  | [] => (st, Ret ())
  | (key, value) :: rest =>
      match restore_outbound_entry key value st with
      | (st, Ret _) => restore_outbound rest st
      | (st, Throw json_exception) => restore_outbound rest st (* logged *)
      | (st, Throw e) => (st, Throw e)
      end
  end.

Definition restoreSessions (c : Cache) : Cache * res unit :=
  match restore_inbound (ordered_entries bytes_le (inboundMegolmSessionDb c))
          (session_storage c) with
  | (st, Throw e) => (set_session_storage st c, Throw e)
  | (st, Ret _) =>
      let '(st, r) :=
        restore_outbound (ordered_entries bytes_le (outboundMegolmSessionDb c))
          st in
      (set_session_storage st c, r)
  end.

(** ** Read receipts (Cache.cpp 655-842) *)

(** [std::map::emplace]: an existing key keeps its value *)
Definition emplace `{Countable K} {V} (k : K) (v : V) (m : gmap K V)
  : gmap K V :=
  match m !! k with
  | Some _ => m
  | None => <[k := v]> m
  end.

Definition merge_receipts (saved_receipts event_receipts : gmap string N)
  : gmap string N :=
  foldl (λ acc event_receipt, emplace event_receipt.1 event_receipt.2 acc)
    saved_receipts (ordered_entries bytes_le event_receipts).

Definition update_event_receipts (room event : string)
    (event_receipts : gmap string N)
    (db : gmap ReadReceiptKey (blob (gmap string N)))
  : res (gmap ReadReceiptKey (blob (gmap string N))) :=
  let key := {| event_id := event; room_id := room |} in
  saved_receipts ←
    match db !! key with
    | Some prev_value => json_parse prev_value
    | None => Ret ∅
    end;
  Ret (<[key := Encoded (merge_receipts saved_receipts event_receipts)]> db).

Definition updateReadReceipt (room : string)
    (receipts : gmap string (gmap string N)) (c : Cache) : res Cache :=
  db ← foldl (λ acc receipt,
                acc ≫= update_event_receipts room receipt.1 receipt.2)
         (Ret (readReceiptsDb c)) (ordered_entries bytes_le receipts);
  Ret (set_readReceiptsDb db c).

(** [std::greater<uint64_t>] *)
Definition greater (a b : N) : bool := N.ltb b a.

(** [CachedReceipts]: (timestamp, user id), latest first *)
Definition readReceipts (event room : string) (c : Cache)
  : res (list (N * string)) :=
  match readReceiptsDb c !! {| event_id := event; room_id := room |} with
  | Some value =>
      values ← json_parse value;
      Ret (foldl (λ receipts v, multimap_emplace greater v.2 v.1 receipts)
             [] (ordered_entries bytes_le values))
  | None => Ret []
  end.

Definition counts_as_read (receipts : list (N * string))
    (excluded_user : string) : bool :=
  match receipts with
  | [] => false
  | [(_, user)] => if decide (user = excluded_user) then false else true
  | _ => true
  end.

Fixpoint filterReadEvents (room : string) (event_ids : list string)
    (excluded_user : string) (c : Cache) : res (list string) :=
  match event_ids with
  | [] => Ret []
  | event :: rest =>
      receipts ← readReceipts event room c;
      read_events ← filterReadEvents room rest excluded_user c;
      Ret (if counts_as_read receipts excluded_user
           then event :: read_events else read_events)
  end.

(** the cursor loop of [pendingReceiptsEvents]; a key that does not parse is
    logged and passed over *)
Fixpoint pending_scan (keys : list (blob ReadReceiptKey)) (room : string)
  : list string :=
  match keys with
  | [] => []
  | Garbled _ :: rest => pending_scan rest room
  | Encoded receipt :: rest =>
      if decide (room_id receipt = room)
      then event_id receipt :: pending_scan rest room
      else pending_scan rest room
  end.

Definition pendingReceiptsEvents (room : string) (c : Cache) : list string :=
  pending_scan (pendingReceiptsDb c) room.

Definition removePendingReceipt (room event : string) (c : Cache) : Cache :=
  let key := Encoded {| event_id := event; room_id := room |} in
  set_pendingReceiptsDb (filter (λ k, k ≠ key) (pendingReceiptsDb c)) c.

(** [if (!matches.empty()) emit newReadReceipts(room_id, matches)] *)
Definition newReadReceipts (room : string) (matches : list string)
  : option (string * list string) :=
  match matches with
  | [] => None
  | _ => Some (room, matches)
  end.

(** the result carries the [newReadReceipts] signal, when one is emitted *)
Definition notifyForReadReceipts (room local_user : string) (c : Cache)
  : res (Cache * option (string * list string)) :=
  matches ← filterReadEvents room (pendingReceiptsEvents room c) local_user c;
  let c := foldl (λ c m, removePendingReceipt room m c) c matches in
  Ret (c, newReadReceipts room matches).

(** ** Timeline (Cache.cpp 1085-1116) and retention (Cache.cpp 1792-1841) *)

Definition MAX_RESTORED_MESSAGES : nat := 30.

(** Modelled from the spec: [getMessagesDb] is defined in Cache.h and sets the
    key comparison of a room's message table.  Keys are the decimal time
    stamps written by [saveTimelineMessages]; the cursor meets the most
    recent entry first ("the scan order is reversed before return",
    "returns them in chronological order"), as [getLastMessageInfo], which
    takes the first entry of the same walk for the last message, confirms. *)
Definition newest_first (a b : N) : bool := N.leb b a.

Record Timeline := {
  timeline_events : list TimelineEvent;
  prev_batch : string;
}.

(** the [while] loop of [getTimelineMessages] from the cursor position on *)
Fixpoint timeline_scan (entries : list (N * blob message_json)) (index : nat)
    (timeline : Timeline) : res Timeline :=
  match entries with
  | [] => Ret timeline
  | (timestamp, msg) :: rest =>
      if decide (index < MAX_RESTORED_MESSAGES)%nat then
        obj ← json_parse msg;
        match event_member obj, token_member obj with
        | Some event_field, Some token_field =>
            event ← json_parse event_field;
            token ← json_parse token_field;
            timeline_scan rest (S index)
              {| timeline_events := timeline_events timeline ++ [event];
                 prev_batch := token |}
        | _, _ => timeline_scan rest index timeline
        end
      else Ret timeline
  end.

Definition getTimelineMessages (room : string) (c : Cache)
  : res (Cache * Timeline) :=
  let '(tables, db) := open_table room (messagesDbs c) in
  timeline ← timeline_scan (ordered_entries newest_first db) 0
                {| timeline_events := []; prev_batch := EmptyString |};
  Ret (set_messagesDbs tables c,
       {| timeline_events := reverse (timeline_events timeline);
          prev_batch := prev_batch timeline |}).

Definition getRoomIds (c : Cache) : list string :=
  (ordered_entries bytes_le (roomsDb c)).*1.

(** the cursor loop of [deleteOldMessages]: [cursor_del] removes the entry
    under the cursor and the walk goes on with the next one *)
Fixpoint delete_beyond_cap {V} (entries : list (N * V)) (idx : nat)
    (db : gmap N V) : gmap N V :=
  match entries with
  | [] => db
  | (ts, _) :: rest =>
      let idx := idx + 1 in
      delete_beyond_cap rest idx
        (if decide (MAX_RESTORED_MESSAGES < idx)%nat then delete ts db else db)
  end.

Definition delete_old_in_room (id : string) (c : Cache) : Cache :=
  let '(tables, msg_db) := open_table id (messagesDbs c) in
  if decide (size msg_db ≤ 3 * MAX_RESTORED_MESSAGES)%nat
  then set_messagesDbs tables c
  else
    set_messagesDbs
      (<[id := delete_beyond_cap (ordered_entries newest_first msg_db) 0 msg_db]>
         tables) c.

Definition deleteOldMessages (c : Cache) : Cache :=
  foldl (λ c id, delete_old_in_room id c) c (getRoomIds c).

(** ** Room search (Cache.cpp 1606-1643) *)






(** [Cache::image(txn, url)] *)
Definition image (url : string) (c : Cache) : string :=
  if decide (url = EmptyString) then EmptyString
  else default EmptyString (mediaDb c !! url).





(** ** Permission check (Cache.cpp 1853-1890) *)

Definition uint16_max : Z := 65535.

(** conversion to [uint16_t] *)
Definition to_uint16 (z : Z) : Z := z mod 65536.

Definition RoomPowerLevels : string := "m.room.power_levels".

(** conversion of the stored JSON to [StateEvent<PowerLevels>] *)
Definition parse_power_levels (event : blob StateEvent) : res PowerLevels :=
  msg ← json_parse event;
  match msg with
  | PowerLevelsEvent content => Ret content
  | OtherStateEvent _ => Throw json_exception
  end.

Definition min_event_level (msg : PowerLevels) (eventTypes : list string) : Z :=
  foldl (λ level ty, Z.min level (to_uint16 (state_level msg ty)))
    uint16_max eventTypes.

Definition hasEnoughPowerLevel (eventTypes : list string)
    (room user : string) (c : Cache) : Cache * bool :=
  let '(tables, db) := open_table room (statesDbs c) in
  let '(user_lvl, min_lvl) :=
    match db !! RoomPowerLevels with
    | Some event =>
        match parse_power_levels event with
        | Ret msg =>
            (to_uint16 (user_level msg user), min_event_level msg eventTypes)
        | Throw _ => (0%Z, uint16_max)
        end
    | None => (0%Z, uint16_max)
    end in
  (set_statesDbs tables c, bool_decide (min_lvl ≤ user_lvl)%Z).

(** ** Observations used in the statements *)

(** the receipt set stored for an event; empty when the table has no entry *)
Definition stored_receipts (room event : string) (c : Cache)
  : res (gmap string N) :=
  match readReceiptsDb c !! {| event_id := event; room_id := room |} with
  | Some value => json_parse value
  | None => Ret ∅
  end.

(** an event is read: its receipt set is not empty and is not the single
    receipt of [user] *)
Definition confirmed_by_other (receipts : gmap string N) (user : string)
  : bool :=
  bool_decide (size receipts ≠ 0 ∧
               ¬ (size receipts = 1 ∧ is_Some (receipts !! user))).

(** the wording of the specification: "its receipt set's size is not exactly
    one local-only entry" *)
Definition not_single_local_entry (receipts : gmap string N) (user : string)
  : bool :=
  bool_decide (¬ (size receipts = 1 ∧ is_Some (receipts !! user))).

Definition event_read (room excluded_user : string) (c : Cache)
    (event : string) : bool :=
  match stored_receipts room event c with
  | Ret receipts => confirmed_by_other receipts excluded_user
  | Throw _ => false
  end.

(** what a room's state table holds for the power levels *)
Definition power_levels_entry (room : string) (c : Cache)
  : option (blob StateEvent) :=
  default ∅ (statesDbs c !! room) !! RoomPowerLevels.

(** what a restored outbound record leaves in the two outbound mirrors *)
Definition restored_data (value : blob outbound_json)
  : option OutboundGroupSessionData :=
  match value with
  | Encoded obj => data_member obj
  | Garbled _ => None
  end.

Definition restored_session (value : blob outbound_json)
  : option OlmOutboundGroupSession :=
  match value with
  | Encoded obj =>
      match data_member obj, session_member obj with
      | Some _, Some (Encoded session) => Some session
      | _, _ => None
      end
  | Garbled _ => None
  end.

(** the contents of a room's message table (empty when not yet created) *)
Definition messages_of (room : string) (c : Cache)
  : gmap N (blob message_json) :=
  default ∅ (messagesDbs c !! room).

(** a stored message that has both members, decoded *)
Definition restorable (value : blob message_json)
  : option (TimelineEvent * string) :=
  match value with
  | Encoded obj =>
      match event_member obj, token_member obj with
      | Some (Encoded event), Some (Encoded token) => Some (event, token)
      | _, _ => None
      end
  | Garbled _ => None
  end.

(** handling the stored message raises no exception: it is a JSON value, and
    when both members are there they convert *)
Definition decodes (value : blob message_json) : bool :=
  match value with
  | Encoded obj =>
      match event_member obj, token_member obj with
      | Some (Garbled _), Some _ => false
      | Some (Encoded _), Some (Garbled _) => false
      | _, _ => true
      end
  | Garbled _ => false
  end.

Definition restorable_entries (entries : list (N * blob message_json))
  : list (N * (TimelineEvent * string)) :=
  omap (λ kv, (λ x, (kv.1, x)) <$> restorable kv.2) entries.

(** [a] is met before [b] by a cursor on a message table *)
Definition newer {V} : relation (N * V) := λ a b, (b.1 < a.1)%N.

(** what [deleteOldMessages] leaves of a message table that it visits *)
Definition retained (db : gmap N (blob message_json))
  : gmap N (blob message_json) :=
  if decide (size db ≤ 3 * MAX_RESTORED_MESSAGES)%nat then db
  else delete_beyond_cap (ordered_entries newest_first db) 0 db.




(** ** Sample stores *)

Definition room_with_session : Cache :=
  set_session_storage
    {| group_inbound_sessions := ∅;
       group_outbound_sessions := {["!r:example.org" := Some {| outbound_state := "s" |}]};
       group_outbound_session_data :=
         {["!r:example.org" := {| message_index := 3; creation_time := 10;
                                  shared_with := [] |}]} |}
    fresh_cache.

(** a store that holds one receipt, of [@alice] at time 100, for event [$e1] *)
Definition store_with_receipt : Cache :=
  set_readReceiptsDb
    {[ {| event_id := "$e1"; room_id := "!r:example.org" |} :=
         Encoded {[ "@alice:example.org" := 100%N ]} ]}
    fresh_cache.

(** a store with three pending receipts in one room: [$e1] has the local
    user's receipt only, [$e2] has one of another user as well, [$e3] has
    none *)
Definition store_with_pending : Cache :=
  set_pendingReceiptsDb
    [ Encoded {| event_id := "$e1"; room_id := "!r:example.org" |};
      Encoded {| event_id := "$e2"; room_id := "!r:example.org" |};
      Encoded {| event_id := "$e3"; room_id := "!r:example.org" |} ]
    (set_readReceiptsDb
       {[ {| event_id := "$e1"; room_id := "!r:example.org" |} :=
            Encoded {[ "@me:example.org" := 100%N ]};
          {| event_id := "$e2"; room_id := "!r:example.org" |} :=
            Encoded {[ "@me:example.org" := 100%N;
                       "@bob:example.org" := 150%N ]} ]}
       fresh_cache).

Definition sample_power_levels : PowerLevels :=
  {| users := {[ "@admin:example.org" := 100%Z ]};
     events := {[ "m.room.name" := 50%Z ]};
     users_default := 0; state_default := 50 |}.

Definition store_with_power_levels : Cache :=
  set_statesDbs
    {[ "!r:example.org" :=
         {[ RoomPowerLevels := Encoded (PowerLevelsEvent sample_power_levels) ]} ]}
    fresh_cache.

(** session tables with one garbled record each, next to good ones *)
Definition store_with_bad_inbound : Cache :=
  set_inboundMegolmSessionDb
    {[ "hash-a" := Garbled "not a pickle";
       "hash-b" := Encoded {| inbound_state := "b" |} ]}
    fresh_cache.

Definition store_with_bad_outbound_json : Cache :=
  set_inboundMegolmSessionDb
    {[ "hash-b" := Encoded {| inbound_state := "b" |} ]}
    (set_outboundMegolmSessionDb
       {[ "!a:example.org" := Garbled "{";
          "!b:example.org" :=
            Encoded {| data_member := Some default_session_data;
                       session_member :=
                         Some (Encoded {| outbound_state := "b" |}) |} ]}
       fresh_cache).

Definition sample_message (body token : string) : blob message_json :=
  Encoded {| event_member := Some (Encoded {| event_json := body |});
             token_member := Some (Encoded token) |}.

(** a message table with a record that is not JSON between two good ones *)
Definition store_with_bad_message : Cache :=
  set_messagesDbs
    {[ "!r:example.org" :=
         {[ 100%N := sample_message "first" "t1";
            200%N := Garbled "{";
            300%N := sample_message "third" "t3" ]} ]}
    fresh_cache.

(** a message table with a record without token between two good ones *)
Definition store_with_partial_message : Cache :=
  set_messagesDbs
    {[ "!r:example.org" :=
         {[ 100%N := sample_message "first" "t1";
            200%N := Encoded {| event_member :=
                                  Some (Encoded {| event_json := "second" |});
                                token_member := None |};
            300%N := sample_message "third" "t3" ]} ]}
    fresh_cache.

(** a message table with the time stamps 1 .. [n] *)
Definition numbered_messages (n : nat) : gmap N (blob message_json) :=
  list_to_map ((λ i, (N.of_nat i, sample_message "m" "t")) <$> seq 1 n).

Definition store_with_messages (n : nat) : Cache :=
  set_messagesDbs {[ "!r:example.org" := numbered_messages n ]}
    {| syncStateDb := ∅;
       roomsDb := {[ "!r:example.org" := Garbled "?" ]};
       mediaDb := ∅; readReceiptsDb := ∅; pendingReceiptsDb := [];
       inboundMegolmSessionDb := ∅; outboundMegolmSessionDb := ∅;
       statesDbs := ∅; messagesDbs := ∅;
       session_storage := session_storage fresh_cache |}.

Definition room_named (n : string) : RoomInfo :=
  {| name := n; topic := "a room"; avatar_url := EmptyString;
     is_invite := false; join_rule := "invite"; guest_access := false;
     member_count := 2 |}.

Definition store_with_rooms : Cache :=
  {| syncStateDb := ∅;
     roomsDb := {[ "!a:example.org" := Encoded (room_named "eam");
                   "!b:example.org" := Encoded (room_named "Team") ]};
     mediaDb := ∅; readReceiptsDb := ∅; pendingReceiptsDb := [];
     inboundMegolmSessionDb := ∅; outboundMegolmSessionDb := ∅;
     statesDbs := ∅; messagesDbs := ∅;
     session_storage := session_storage fresh_cache |}.

(** * Further operations of Cache.cpp *)

Definition set_roomsDb (v : gmap string (blob RoomInfo)) (c : Cache) : Cache :=
  {| syncStateDb := syncStateDb c; roomsDb := v; mediaDb := mediaDb c;
     readReceiptsDb := readReceiptsDb c;
     pendingReceiptsDb := pendingReceiptsDb c;
     inboundMegolmSessionDb := inboundMegolmSessionDb c;
     outboundMegolmSessionDb := outboundMegolmSessionDb c;
     statesDbs := statesDbs c; messagesDbs := messagesDbs c;
     session_storage := session_storage c |}.


(** ** Outbound session lookup (Cache.cpp 318-324) and process start *)

(** [OutboundGroupSessionDataRef{session, data}]; both members are read with
    [operator[]], the session first *)
Definition getOutboundMegolmSession (room : string) (c : Cache)
  : Cache * (option OlmOutboundGroupSession * OutboundGroupSessionData) :=
  let st := session_storage c in
  let '(sessions, session) :=
    subscript None room (group_outbound_sessions st) in
  let '(data_map, data) :=
    subscript default_session_data room (group_outbound_session_data st) in
  (set_session_storage
     (set_group_outbound_session_data data_map
        (set_group_outbound_sessions sessions st)) c,
   (session, data)).



(** ** Sync state (Cache.cpp 388-394, 446-455, 568-604) *)

Definition NEXT_BATCH_KEY : string := "next_batch".
Definition OLM_ACCOUNT_KEY : string := "olm_account".

Definition saveOlmAccount (data : string) (c : Cache) : Cache :=
  set_syncStateDb (<[OLM_ACCOUNT_KEY := data]> (syncStateDb c)) c.

(** an [lmdb::val] that was not filled converts to the empty string *)
Definition restoreOlmAccount (c : Cache) : string :=
  default EmptyString (syncStateDb c !! OLM_ACCOUNT_KEY).

Definition setNextBatchToken (token : string) (c : Cache) : Cache :=
  set_syncStateDb (<[NEXT_BATCH_KEY := token]> (syncStateDb c)) c.

Definition isInitialized (c : Cache) : bool :=
  bool_decide (is_Some (syncStateDb c !! NEXT_BATCH_KEY)).

Definition nextBatchToken (c : Cache) : string :=
  default EmptyString (syncStateDb c !! NEXT_BATCH_KEY).

(** ** Media (Cache.cpp 461-506) *)


(** ** Leaving a room (Cache.cpp 560-566) *)

(** the overload without a transaction: only the rooms table is touched *)
Definition removeRoom (room : string) (c : Cache) : Cache :=
  set_roomsDb (delete room (roomsDb c)) c.

(** ** The last message of a room (Cache.cpp 1155-1185) *)

Section last_message.
Context {DescInfo : Type}.
(** [DescInfo{}] *)
Variable no_description : DescInfo.
(** [utils::getMessageDescription(event, local_user, room_id)] *)
Variable getMessageDescription : TimelineEvent → string → string → DescInfo.

Fixpoint last_message_scan (entries : list (N * blob message_json))
    (local_user room : string) : res DescInfo :=
  match entries with
  | [] => Ret no_description
  | (timestamp, msg) :: rest =>
      obj ← json_parse msg;
      match event_member obj with
      | None => last_message_scan rest local_user room
      | Some event_field =>
          event ← json_parse event_field;
          Ret (getMessageDescription event local_user room)
      end
  end.

Definition getLastMessageInfo (room local_user : string) (c : Cache)
  : res (Cache * DescInfo) :=
  let '(tables, db) := open_table room (messagesDbs c) in
  if decide (size db = 0) then Ret (set_messagesDbs tables c, no_description)
  else
    info ← last_message_scan (ordered_entries newest_first db) local_user room;
    Ret (set_messagesDbs tables c, info).
End last_message.

(** ** Saving a timeline (Cache.cpp 1733-1760) *)

Section incoming_timeline.
(** the events of a sync response, seen through what the code asks of them *)
Context {Event : Type}.
Variable isStateEvent : Event → bool.
(** [boost::get<RedactionEvent<msg::Redaction>>(&e) != nullptr] *)
Variable isRedaction : Event → bool.
(** [utils::event_timestamp(e)] *)
Variable event_timestamp : Event → N.
(** [utils::serialize_event(e)], which [from_json] reads back *)
Variable serialize_event : Event → TimelineEvent.

Definition stored_message (e : Event) (prev_batch : string)
  : blob message_json :=
  Encoded {| event_member := Some (Encoded (serialize_event e));
             token_member := Some (Encoded prev_batch) |}.

Definition save_event (prev_batch : string) (db : gmap N (blob message_json))
    (e : Event) : gmap N (blob message_json) :=
  if isStateEvent e then db
  else if isRedaction e then db
  else <[event_timestamp e := stored_message e prev_batch]> db.

Definition saveTimelineMessages (room : string) (events : list Event)
    (prev_batch : string) (c : Cache) : Cache :=
  let '(tables, db) := open_table room (messagesDbs c) in
  set_messagesDbs
    (<[room := foldl (save_event prev_batch) db events]> tables) c.

(** the events of a batch that are stored *)
Definition is_message (e : Event) : bool :=
  negb (isStateEvent e) && negb (isRedaction e).
End incoming_timeline.

(** a stored message with an event member that converts *)
Definition described (value : blob message_json) : option TimelineEvent :=
  match value with
  | Encoded obj =>
      match event_member obj with
      | Some (Encoded event) => Some event
      | _ => None
      end
  | Garbled _ => None
  end.

(** [getLastMessageInfo] raises no exception on the stored message *)
Definition event_decodes (value : blob message_json) : bool :=
  match value with
  | Encoded obj =>
      match event_member obj with
      | Some (Garbled _) => false
      | _ => true
      end
  | Garbled _ => false
  end.

(** ** Room members (Cache.cpp 1678-1718) *)

(** [MemberInfo]: the display name and the avatar of a member, as stored in
    a room's members table *)
Module Member.
Record MemberInfo := { name : string; avatar_url : string }.
End Member.

(** an element of the member list: [RoomMember{user_id, tmp.name, image}] *)
Record RoomMember := {
  member_user_id : string;
  member_display_name : string;
  member_avatar : string;
}.

(** arithmetic on [std::size_t] *)
Definition size_t_add (a b : N) : N := ((a + b) mod 2 ^ 64)%N.

Fixpoint members_scan (c : Cache) (startIndex endIndex : N)
    (entries : list (string * blob Member.MemberInfo)) (currentIndex : N)
    (members : list RoomMember) : list RoomMember :=
  match entries with
  | [] => members
  | (user_id, user_data) :: rest =>
      if decide (currentIndex < startIndex)%N then
        members_scan c startIndex endIndex rest (size_t_add currentIndex 1)
          members
      else if decide (endIndex ≤ currentIndex)%N then members
      else
        let members' :=
          match json_parse user_data with
          | Ret tmp =>
              (members ++ [ {| member_user_id := user_id;
                               member_display_name := Member.name tmp;
                               member_avatar :=
                                 image (Member.avatar_url tmp) c |} ])%list
          | Throw _ => members
          end in
        members_scan c startIndex endIndex rest (size_t_add currentIndex 1)
          members'
  end.

(** [db] is the room's members table, the handle [getMembersDb(txn, room_id)]
    gives *)
Definition getMembers (db : gmap string (blob Member.MemberInfo))
    (startIndex len : N) (c : Cache) : list RoomMember :=
  let endIndex := N.min (size_t_add startIndex len) (N.of_nat (size db)) in
  members_scan c startIndex endIndex (ordered_entries bytes_le db) 0%N [].

(** the list entry made of a row of the members table *)
Definition room_member (c : Cache) (row : string * blob Member.MemberInfo)
  : option RoomMember :=
  match row.2 with
  | Encoded tmp =>
      Some {| member_user_id := row.1;
              member_display_name := Member.name tmp;
              member_avatar := image (Member.avatar_url tmp) c |}
  | Garbled _ => None
  end.

(** ** The displayed name of a room (Cache.cpp 1259-1334) *)

Definition RoomName : string := "m.room.name".
Definition RoomCanonicalAlias : string := "m.room.canonical_alias".

(** conversion of a [size_t] to [int] *)
Definition to_int (n : N) : Z := ((Z.of_N n + 2 ^ 31) mod 2 ^ 32 - 2 ^ 31)%Z.

Fixpoint name_members_scan
    (entries : list (string * blob Member.MemberInfo))
    (ii : nat) (members : gmap string Member.MemberInfo)
  : gmap string Member.MemberInfo :=
  match entries with
  | [] => members
  | (user_id, member_data) :: rest =>
      if decide (ii < 3)%nat then
        let members' :=
          match json_parse member_data with
          | Ret info => emplace user_id info members
          | Throw _ => members
          end in
        name_members_scan rest (S ii) members'
      else members
  end.

(** the lambda [first_member]: the first member that is not the local user *)
Fixpoint first_member (local_user : string)
    (members : list (string * Member.MemberInfo)) : string :=
  match members with
  | [] => local_user
  | m :: rest =>
      if decide (m.1 ≠ local_user) then Member.name m.2
      else first_member local_user rest
  end.

Section room_name.
(** conversion of a parsed event to [StateEvent<Name>] and its
    [content.name]; [None] when it throws [json::exception] *)
Variable name_content : StateEvent → option string.
(** the same for [StateEvent<CanonicalAlias>] and [content.alias] *)
Variable alias_content : StateEvent → option string.
(** [QString("%1 and %2 others").arg(first_member).arg(total)] *)
Variable and_others : string → Z → string.

Definition members_name (local_user : string)
    (membersdb : gmap string (blob Member.MemberInfo)) : string :=
  let total := to_int (N.of_nat (size membersdb)) in
  let members :=
    name_members_scan (ordered_entries bytes_le membersdb) 0 ∅ in
  (* [total == 1 && !members.empty()] *)
  let only :=
    if decide (total = 1%Z) then head (ordered_entries bytes_le members)
    else None in
  match only with
  | Some begin_ => Member.name begin_.2
  | None =>
      let first_member :=
        first_member local_user (ordered_entries bytes_le members) in
      if decide (total = 2%Z) then first_member
      else if decide (2 < total)%Z then and_others first_member total
      else "Empty Room"
  end.

Definition alias_or_members_name (local_user : string)
    (statesdb : gmap string (blob StateEvent))
    (membersdb : gmap string (blob Member.MemberInfo)) : string :=
  match statesdb !! RoomCanonicalAlias with
  | Some event =>
      match json_parse event with
      | Ret msg =>
          match alias_content msg with
          | Some alias =>
              if decide (alias ≠ EmptyString) then alias
              else members_name local_user membersdb
          | None => members_name local_user membersdb
          end
      | Throw _ => members_name local_user membersdb
      end
  | None => members_name local_user membersdb
  end.

Definition getRoomName (local_user : string)
    (statesdb : gmap string (blob StateEvent))
    (membersdb : gmap string (blob Member.MemberInfo)) : string :=
  match statesdb !! RoomName with
  | Some event =>
      match json_parse event with
      | Ret msg =>
          match name_content msg with
          | Some name =>
              if decide (name ≠ EmptyString) then name
              else alias_or_members_name local_user statesdb membersdb
          | None => alias_or_members_name local_user statesdb membersdb
          end
      | Throw _ => alias_or_members_name local_user statesdb membersdb
      end
  | None => alias_or_members_name local_user statesdb membersdb
  end.
End room_name.

(** ** Rooms with state updates (Cache.cpp 949-983) *)

Section state_updates.
Context {Event StrippedEvent : Type}.
(** the two overloads of [containsStateUpdates] *)
Variable containsStateUpdates : Event → bool.
Variable containsStrippedUpdates : StrippedEvent → bool.

Record JoinedRoom := {
  state_events : list Event;
  timeline_of_room : list Event;
}.

(** [res.rooms.join] and [res.rooms.invite], each a [std::map] *)
Record SyncRooms := {
  join : gmap string JoinedRoom;
  invite : gmap string (list StrippedEvent);
}.

Definition joined_with_updates (rooms : list string)
    (room : string * JoinedRoom) : list string :=
  let hasUpdates := existsb containsStateUpdates (state_events room.2) in
  let hasUpdates :=
    hasUpdates || existsb containsStateUpdates (timeline_of_room room.2) in
  if hasUpdates then (rooms ++ [room.1])%list else rooms.

Definition invited_with_updates (rooms : list string)
    (room : string * list StrippedEvent) : list string :=
  if existsb containsStrippedUpdates room.2 then (rooms ++ [room.1])%list
  else rooms.

Definition roomsWithStateUpdates (res : SyncRooms) : list string :=
  let rooms :=
    foldl joined_with_updates [] (ordered_entries bytes_le (join res)) in
  foldl invited_with_updates rooms (ordered_entries bytes_le (invite res)).
End state_updates.

(** ** More sample data *)

Definition sample_hash (index : MegolmSessionIndex) : string :=
  index_room_id index +:+ index_session_id index +:+ index_sender_key index.

Definition sample_index : MegolmSessionIndex :=
  {| index_room_id := "!r:example.org"; index_session_id := "s1";
     index_sender_key := "k1" |}.

Definition other_index : MegolmSessionIndex :=
  {| index_room_id := "!r:example.org"; index_session_id := "s2";
     index_sender_key := "k1" |}.

Definition sample_session_data : OutboundGroupSessionData :=
  {| message_index := 0; creation_time := 1528000000;
     shared_with := ["@bob:example.org"] |}.

(** latest first *)
Definition later_first {V} : relation (N * V) := λ a b, (b.1 ≤ a.1)%N.

(** a sync that carries receipts for two events of a room *)
Definition sample_receipts : gmap string (gmap string N) :=
  {[ "$e1" := {[ "@bob:example.org" := 150%N ]};
     "$e2" := {[ "@me:example.org" := 170%N; "@bob:example.org" := 180%N ]} ]}.

(** a sync event for the samples: kind, time stamp and body *)
Inductive sample_kind := StateKind | RedactionKind | MessageKind.

Record sample_event := {
  sample_event_kind : sample_kind;
  sample_event_ts : N;
  sample_event_body : string;
}.

Definition sample_is_state (e : sample_event) : bool :=
  match sample_event_kind e with StateKind => true | _ => false end.

Definition sample_is_redaction (e : sample_event) : bool :=
  match sample_event_kind e with RedactionKind => true | _ => false end.

Definition sample_serialize (e : sample_event) : TimelineEvent :=
  {| event_json := sample_event_body e |}.

Definition sample_batch : list sample_event :=
  [ {| sample_event_kind := MessageKind; sample_event_ts := 300;
       sample_event_body := "third" |};
    {| sample_event_kind := StateKind; sample_event_ts := 250;
       sample_event_body := "topic" |};
    {| sample_event_kind := MessageKind; sample_event_ts := 100;
       sample_event_body := "first" |};
    {| sample_event_kind := RedactionKind; sample_event_ts := 150;
       sample_event_body := "redaction" |};
    {| sample_event_kind := MessageKind; sample_event_ts := 200;
       sample_event_body := "second" |} ].

(** the non-empty text a stored state event gives under [key], if any *)
Definition stated (content : StateEvent → option string) (key : string)
    (statesdb : gmap string (blob StateEvent)) : option string :=
  match statesdb !! key with
  | Some (Encoded msg) =>
      match content msg with
      | Some text => if decide (text = EmptyString) then None else Some text
      | None => None
      end
  | _ => None
  end.

Definition sample_members : gmap string (blob Member.MemberInfo) :=
  {[ "@alice:example.org" :=
       Encoded {| Member.name := "Alice"; Member.avatar_url := "mxc://a" |};
     "@bob:example.org" := Garbled "{";
     "@carol:example.org" :=
       Encoded {| Member.name := "Carol";
                  Member.avatar_url := EmptyString |} ]}.

Definition sample_direct_chat : gmap string (blob Member.MemberInfo) :=
  <[ "@me:example.org" :=
       Encoded {| Member.name := "Me"; Member.avatar_url := EmptyString |} ]>
  {[ "@alice:example.org" :=
       Encoded {| Member.name := "Alice";
                  Member.avatar_url := "mxc://a" |} ]}.

(** a content reader for the samples: the text of an event that is not a
    power-levels event *)
Definition sample_content (event : StateEvent) : option string :=
  match event with
  | OtherStateEvent content => Some content
  | PowerLevelsEvent _ => None
  end.

Definition sample_and_others (first : string) (total : Z) : string :=
  first +:+ " and others".

Definition sample_states : gmap string (blob StateEvent) :=
  {[ RoomName := Encoded (OtherStateEvent EmptyString);
     RoomCanonicalAlias := Encoded (OtherStateEvent "#room:example.org") ]}.

(** * Properties *)

(** ** Ordered walks *)

Section ordered_facts.
Context `{Countable K} {V : Type} (le : K → K → bool).

Lemma ordered_entries_perm (db : gmap K V) :
  ordered_entries le db ≡ₚ map_to_list db.
Proof. apply merge_sort_Permutation. Qed.

Lemma elem_of_ordered_entries (db : gmap K V) k v :
  (k, v) ∈ ordered_entries le db ↔ db !! k = Some v.
Proof. rewrite ordered_entries_perm. apply elem_of_map_to_list. Qed.

Lemma NoDup_ordered_keys (db : gmap K V) : NoDup (ordered_entries le db).*1.
Proof. rewrite ordered_entries_perm. apply NoDup_fst_map_to_list. Qed.

Lemma length_ordered_entries (db : gmap K V) :
  length (ordered_entries le db) = size db.
Proof. rewrite ordered_entries_perm. apply length_map_to_list. Qed.

Lemma ordered_entries_empty : ordered_entries le (∅ : gmap K V) = [].
Proof. unfold ordered_entries. by rewrite map_to_list_empty. Qed.

Lemma ordered_entries_singleton k (v : V) :
  ordered_entries le ({[k := v]} : gmap K V) = [(k, v)].
Proof. unfold ordered_entries. by rewrite map_to_list_singleton. Qed.

Lemma list_to_map_ordered_entries (db : gmap K V) :
  list_to_map (ordered_entries le db) = db.
Proof.
  rewrite <- (list_to_map_to_list db) at 2.
  apply list_to_map_proper; [apply NoDup_ordered_keys|apply ordered_entries_perm].
Qed.
End ordered_facts.

(** ** Format check *)

(** C9: [isFormatValid] is true when no version marker is stored and when the
    stored marker is the current version string, false for any other stored
    marker, and true after [setCurrentFormat]. *)
Theorem isFormatValid_spec (c : Cache) :
  (syncStateDb c !! CACHE_FORMAT_VERSION_KEY = None → isFormatValid c = true) ∧
  (syncStateDb c !! CACHE_FORMAT_VERSION_KEY = Some CURRENT_CACHE_FORMAT_VERSION →
   isFormatValid c = true) ∧
  (∀ stored, syncStateDb c !! CACHE_FORMAT_VERSION_KEY = Some stored →
             stored ≠ CURRENT_CACHE_FORMAT_VERSION → isFormatValid c = false) ∧
  isFormatValid (setCurrentFormat c) = true.
Proof.
  unfold isFormatValid. repeat split.
  - by intros ->.
  - intros ->. by case_decide.
  - intros stored -> Hne. by case_decide.
  - unfold setCurrentFormat; simpl. rewrite lookup_insert_eq. by case_decide.
Qed.

Lemma isFormatValid_spec_witness :
  isFormatValid fresh_cache = true ∧
  isFormatValid
    (set_syncStateDb {[CACHE_FORMAT_VERSION_KEY := CURRENT_CACHE_FORMAT_VERSION]}
       fresh_cache) = true ∧
  isFormatValid
    (set_syncStateDb {[CACHE_FORMAT_VERSION_KEY := "2017.12.24"]} fresh_cache)
  = false.
Proof.
  split; [|split].
  - destruct (isFormatValid_spec fresh_cache) as (Hfresh & _).
    apply Hfresh. reflexivity.
  - destruct (isFormatValid_spec
                (set_syncStateDb
                   {[CACHE_FORMAT_VERSION_KEY := CURRENT_CACHE_FORMAT_VERSION]}
                   fresh_cache)) as (_ & Hsame & _).
    apply Hsame. reflexivity.
  - destruct (isFormatValid_spec
                (set_syncStateDb {[CACHE_FORMAT_VERSION_KEY := "2017.12.24"]}
                   fresh_cache)) as (_ & _ & Hother & _).
    apply (Hother "2017.12.24"); [reflexivity|discriminate].
Defined.

(** ** Session management *)

Section inbound_lookup.
Variable to_hash : MegolmSessionIndex → string.

(** C10: for a session index with no entry in the inbound mirror,
    [getInboundMegolmSession] returns a null handle and leaves a default
    (null) entry under the index's hash in the mirror, so that
    [inboundMegolmSessionExists] then answers true although the session table
    on disk is as before. *)
Theorem getInboundMegolmSession_inserts_default
    (index : MegolmSessionIndex) (c : Cache) :
  group_inbound_sessions (session_storage c) !! to_hash index = None →
  (getInboundMegolmSession to_hash index c).2 = None ∧
  group_inbound_sessions
    (session_storage (getInboundMegolmSession to_hash index c).1)
  = <[to_hash index := None]> (group_inbound_sessions (session_storage c)) ∧
  inboundMegolmSessionDb (getInboundMegolmSession to_hash index c).1
  = inboundMegolmSessionDb c ∧
  inboundMegolmSessionExists to_hash index c = false ∧
  inboundMegolmSessionExists to_hash index
    (getInboundMegolmSession to_hash index c).1 = true.
Proof.
  intros Hnone.
  unfold getInboundMegolmSession, inboundMegolmSessionExists, subscript.
  rewrite Hnone; simpl.
  split_and!; try done.
  apply bool_decide_eq_true_2. rewrite lookup_insert_eq. by eexists.
Qed.
End inbound_lookup.

Lemma getInboundMegolmSession_inserts_default_witness :
  let to_hash := λ i, index_room_id i +:+ index_session_id i +:+ index_sender_key i in
  let index := {| index_room_id := "!r:example.org"; index_session_id := "s1";
                  index_sender_key := "k1" |} in
  (getInboundMegolmSession to_hash index fresh_cache).2 = None ∧
  inboundMegolmSessionExists to_hash index
    (getInboundMegolmSession to_hash index fresh_cache).1 = true.
Proof.
  intros to_hash index.
  pose proof (getInboundMegolmSession_inserts_default to_hash index fresh_cache)
    as Hspec.
  destruct Hspec as (Hptr & _ & _ & _ & Hexists); [reflexivity|].
  split; assumption.
Defined.

(** C8: [updateOutboundMegolmSession] on a room without an outbound session
    returns with the whole store (tables and mirrors) as it was; when the
    session exists, the message index written to the outbound session table
    is the one stored in the mirror, namely the new index. *)
Theorem updateOutboundMegolmSession_spec (room : string) (new_index : Z)
    (c : Cache) :
  (outboundMegolmSessionExists room c = false →
   updateOutboundMegolmSession room new_index c = Ret c) ∧
  (∀ session,
     group_outbound_sessions (session_storage c) !! room = Some (Some session) →
     is_Some (group_outbound_session_data (session_storage c) !! room) →
     ∃ c' data,
       updateOutboundMegolmSession room new_index c = Ret c' ∧
       group_outbound_session_data (session_storage c') !! room = Some data ∧
       outboundMegolmSessionDb c' !! room
       = Some (Encoded {| data_member := Some data;
                          session_member := Some (pickle session) |}) ∧
       message_index data = new_index).
Proof.
  split.
  - intros Hno. unfold updateOutboundMegolmSession. by rewrite Hno.
  - intros session Hsession [data Hdata].
    unfold updateOutboundMegolmSession, outboundMegolmSessionExists, subscript.
    rewrite Hsession, Hdata; simpl.
    eexists _, (set_message_index new_index data).
    split; [reflexivity|]. simpl.
    rewrite !lookup_insert_eq. done.
Qed.

Lemma updateOutboundMegolmSession_spec_witness :
  updateOutboundMegolmSession "!r:example.org" 7 fresh_cache = Ret fresh_cache ∧
  ∃ c' data,
    updateOutboundMegolmSession "!r:example.org" 7 room_with_session = Ret c' ∧
    group_outbound_session_data (session_storage c') !! "!r:example.org"
    = Some data ∧
    outboundMegolmSessionDb c' !! "!r:example.org"
    = Some (Encoded {| data_member := Some data;
                       session_member := Some (pickle {| outbound_state := "s" |}) |}) ∧
    message_index data = 7%Z.
Proof.
  split.
  - destruct (updateOutboundMegolmSession_spec "!r:example.org" 7 fresh_cache)
      as (Hnoop & _).
    apply Hnoop. reflexivity.
  - destruct (updateOutboundMegolmSession_spec "!r:example.org" 7
                room_with_session) as (_ & Hupdate).
    apply (Hupdate {| outbound_state := "s" |}).
    + reflexivity.
    + eexists. reflexivity.
Defined.

(** ** Read receipts *)

Lemma emplace_union `{Countable K} {V} (k : K) (v : V) (m : gmap K V) :
  emplace k v m = m ∪ {[k := v]}.
Proof.
  unfold emplace. destruct (m !! k) as [w|] eqn:Hk.
  - apply map_eq. intros i. rewrite lookup_union.
    destruct (decide (i = k)) as [->|Hne].
    + rewrite Hk, lookup_singleton_eq. done.
    + rewrite lookup_singleton_ne by done. by destruct (m !! i).
  - by apply insert_union_singleton_r.
Qed.

Lemma union_singleton_absorb `{Countable K} {V} (k : K) (v : V) (m : gmap K V) :
  is_Some (m !! k) → m ∪ {[k := v]} = m.
Proof.
  intros [w Hk]. rewrite <- emplace_union. unfold emplace. by rewrite Hk.
Qed.

Lemma merge_receipts_union (saved new : gmap string N) :
  merge_receipts saved new = saved ∪ new.
Proof.
  unfold merge_receipts.
  rewrite <- (list_to_map_ordered_entries bytes_le new) at 2.
  generalize (ordered_entries bytes_le new). intros l. revert saved.
  induction l as [|[u t] l IH]; intros saved; simpl.
  - by rewrite (right_id_L ∅ (∪)).
  - rewrite IH, emplace_union, <- (assoc_L (∪)).
    by rewrite <- insert_union_singleton_l.
Qed.

Lemma updateReadReceipt_single room event (new : gmap string N) c :
  updateReadReceipt room {[event := new]} c
  = (saved ← stored_receipts room event c;
     Ret (set_readReceiptsDb
            (<[{| event_id := event; room_id := room |} :=
                 Encoded (saved ∪ new)]> (readReceiptsDb c)) c)).
Proof.
  unfold updateReadReceipt, stored_receipts, update_event_receipts.
  rewrite ordered_entries_singleton. simpl.
  destruct (readReceiptsDb c !! _) as [[saved|raw]|]; simpl; try done;
    by rewrite merge_receipts_union.
Qed.

(** C1 (as amended): merging the same [{user: timestamp}] entry a second time
    leaves the stored receipt set as it was after the first merge; the merge
    adds the entry only when the user has no receipt for the event yet, so
    after merging [{u: t1}] and then [{u: t2}] the stored set is the one
    after the first merge, in which u keeps the earlier value. *)
Theorem updateReadReceipt_merge (room event user : string) (t1 t2 : N)
    (c : Cache) :
  (updateReadReceipt room {[event := {[user := t1]}]} c
     ≫= updateReadReceipt room {[event := {[user := t1]}]}
   = updateReadReceipt room {[event := {[user := t1]}]} c) ∧
  (∀ saved, stored_receipts room event c = Ret saved →
     ∃ c1,
       updateReadReceipt room {[event := {[user := t1]}]} c = Ret c1 ∧
       stored_receipts room event c1 = Ret (saved ∪ {[user := t1]}) ∧
       (saved ∪ {[user := t1]}) !! user = Some (default t1 (saved !! user)) ∧
       updateReadReceipt room {[event := {[user := t1]}]} c1 = Ret c1 ∧
       updateReadReceipt room {[event := {[user := t2]}]} c1 = Ret c1).
Proof.
  assert (Hagain : ∀ saved t,
    let c1 := set_readReceiptsDb
                (<[{| event_id := event; room_id := room |} :=
                     Encoded (saved ∪ {[user := t1]})]> (readReceiptsDb c)) c in
    updateReadReceipt room {[event := {[user := t]}]} c1 = Ret c1).
  { intros saved t c1. rewrite updateReadReceipt_single.
    unfold stored_receipts, c1; simpl. rewrite lookup_insert_eq; simpl.
    rewrite insert_insert_eq, union_singleton_absorb; [done|].
    rewrite lookup_union, lookup_singleton_eq. by destruct (saved !! user). }
  split.
  - rewrite updateReadReceipt_single.
    destruct (stored_receipts room event c) as [saved|e]; simpl; [|done].
    apply Hagain.
  - intros saved Hsaved. eexists. split_and!.
    + rewrite updateReadReceipt_single, Hsaved. reflexivity.
    + unfold stored_receipts; simpl. by rewrite lookup_insert_eq.
    + rewrite lookup_union, lookup_singleton_eq.
      by destruct (saved !! user).
    + apply Hagain.
    + apply Hagain.
Qed.

Lemma updateReadReceipt_merge_witness :
  ∃ c1,
    updateReadReceipt "!r:example.org"
      {["$e1" := {["@alice:example.org" := 100%N]}]} fresh_cache = Ret c1 ∧
    stored_receipts "!r:example.org" "$e1" c1
    = Ret (∅ ∪ {["@alice:example.org" := 100%N]}) ∧
    updateReadReceipt "!r:example.org"
      {["$e1" := {["@alice:example.org" := 200%N]}]} c1 = Ret c1.
Proof.
  destruct (updateReadReceipt_merge "!r:example.org" "$e1" "@alice:example.org"
              100 200 fresh_cache) as (_ & Hmerge).
  destruct (Hmerge ∅) as (c1 & Hfirst & Hstored & _ & _ & Hsecond);
    [reflexivity|].
  exists c1. split; [exact Hfirst|]. split; [exact Hstored|exact Hsecond].
Defined.

(** C1 as stated fails: with t2 = 200 > t1 = 100 the user still maps to 100
    after the second merge. *)
Lemma updateReadReceipt_later_timestamp_not_taken :
  updateReadReceipt "!r:example.org"
    {["$e1" := {["@alice:example.org" := 100%N]}]} fresh_cache
  = Ret store_with_receipt ∧
  updateReadReceipt "!r:example.org"
    {["$e1" := {["@alice:example.org" := 200%N]}]} store_with_receipt
  = Ret store_with_receipt ∧
  (100 < 200)%N ∧
  ∃ s, stored_receipts "!r:example.org" "$e1" store_with_receipt = Ret s ∧
       s !! "@alice:example.org" = Some 100%N ∧
       s !! "@alice:example.org" ≠ Some 200%N.
Proof.
  split; [vm_compute; reflexivity|].
  split; [vm_compute; reflexivity|].
  split; [reflexivity|].
  eexists. split; [reflexivity|]. split; [reflexivity|discriminate].
Qed.

Lemma readReceipts_stored event room c :
  readReceipts event room c
  = (values ← stored_receipts room event c;
     Ret (foldl (λ receipts v, multimap_emplace greater v.2 v.1 receipts)
            [] (ordered_entries bytes_le values))).
Proof.
  unfold readReceipts, stored_receipts.
  destruct (readReceiptsDb c !! _) as [value|]; [done|].
  simpl. by rewrite ordered_entries_empty.
Qed.

Lemma length_multimap_emplace {K V} (lt : K → K → bool) k (v : V) items :
  length (multimap_emplace lt k v items) = S (length items).
Proof.
  induction items as [|[k' v'] items IH]; simpl; [done|].
  destruct (lt k k'); simpl; by rewrite ?IH.
Qed.

Lemma length_cached_receipts (l : list (string * N)) acc :
  length (foldl (λ receipts v, multimap_emplace greater v.2 v.1 receipts) acc l)
  = length acc + length l.
Proof.
  revert acc. induction l as [|x l IH]; intros acc; simpl; [lia|].
  rewrite IH, length_multimap_emplace. lia.
Qed.

Lemma counts_as_read_confirmed (values : gmap string N) excluded_user :
  counts_as_read
    (foldl (λ receipts v, multimap_emplace greater v.2 v.1 receipts)
       [] (ordered_entries bytes_le values)) excluded_user
  = confirmed_by_other values excluded_user.
Proof.
  unfold confirmed_by_other.
  pose proof (length_ordered_entries bytes_le values) as Hlen.
  pose proof (λ k v, elem_of_ordered_entries bytes_le values k v) as Hel.
  destruct (ordered_entries bytes_le values) as [|[u t] [|y l]]; simpl in *.
  - symmetry. apply bool_decide_eq_false_2. intros [? _]. congruence.
  - case_decide as Hu; symmetry.
    + apply bool_decide_eq_false_2. intros [_ Hn]. apply Hn. split; [done|].
      exists t. apply Hel. subst. apply list_elem_of_here.
    + apply bool_decide_eq_true_2. split; [lia|]. intros [_ [v Hv]].
      apply Hel in Hv. apply list_elem_of_singleton in Hv. congruence.
  - pose proof (length_cached_receipts l
                  (multimap_emplace greater y.2 y.1 [(t, u)])) as Hl.
    rewrite length_multimap_emplace in Hl. simpl in Hl.
    destruct (foldl _ _ l) as [|[t1 u1] [|z r]]; simpl in Hl; try lia.
    symmetry. apply bool_decide_eq_true_2. split; lia.
Qed.

Lemma filterReadEvents_filter room event_ids excluded_user c :
  (∀ e, e ∈ event_ids → ∃ m, stored_receipts room e c = Ret m) →
  filterReadEvents room event_ids excluded_user c
  = Ret (filter (λ e, event_read room excluded_user c e) event_ids).
Proof.
  induction event_ids as [|e l IH]; intros Hdec; simpl; [done|].
  destruct (Hdec e) as [m Hm]; [apply list_elem_of_here|].
  rewrite readReceipts_stored, Hm; simpl.
  rewrite IH by (intros; apply Hdec; by apply list_elem_of_further). simpl.
  rewrite counts_as_read_confirmed, filter_cons.
  assert (event_read room excluded_user c e = confirmed_by_other m excluded_user)
    as -> by (unfold event_read; by rewrite Hm).
  destruct (confirmed_by_other m excluded_user); by case_decide.
Qed.

Lemma pending_scan_remove keys room event :
  pending_scan
    (filter (λ k, k ≠ Encoded {| event_id := event; room_id := room |}) keys)
    room
  = filter (λ e, e ≠ event) (pending_scan keys room).
Proof.
  induction keys as [|[[e r]|raw] keys IH]; simpl; [done| |].
  - rewrite filter_cons. case_decide as Hk; simpl.
    + case_decide as Hr; simpl in *; [|done].
      rewrite filter_cons, decide_True; [by rewrite IH|]. naive_solver.
    + injection Hk as -> ->.
      rewrite decide_True by done. rewrite filter_cons, decide_False by naive_solver.
      done.
  - exact IH.
Qed.

Lemma pending_after_removals room matches c :
  pendingReceiptsEvents room
    (foldl (λ c m, removePendingReceipt room m c) c matches)
  = filter (λ e, e ∉ matches) (pendingReceiptsEvents room c)
  ∧ readReceiptsDb (foldl (λ c m, removePendingReceipt room m c) c matches)
    = readReceiptsDb c.
Proof.
  revert c. induction matches as [|m l IH]; intros c; simpl.
  - split; [|done]. unfold pendingReceiptsEvents.
    induction (pending_scan _ _) as [|x xs IHx]; [done|].
    rewrite filter_cons, decide_True by apply not_elem_of_nil. by f_equal.
  - destruct (IH (removePendingReceipt room m c)) as [-> ->].
    split; [|done]. unfold pendingReceiptsEvents, removePendingReceipt; simpl.
    rewrite pending_scan_remove, list_filter_filter.
    apply list_filter_iff. intros e. rewrite not_elem_of_cons. tauto.
Qed.

Lemma filter_not_in_filter_sub {A} `{EqDecision A} (P : A → Prop)
    `{∀ x, Decision (P x)} (l0 l : list A) :
  (∀ e, e ∈ l → e ∈ l0) →
  filter (λ e, e ∉ filter P l0) l = filter (λ e, ¬ P e) l.
Proof.
  induction l as [|x l IH]; intros Hsub; [done|].
  rewrite !filter_cons.
  rewrite IH by (intros; apply Hsub; by apply list_elem_of_further).
  assert (x ∈ l0) as Hx by apply Hsub, list_elem_of_here.
  destruct (decide (P x)) as [HP|HP].
  - rewrite decide_False; [by rewrite decide_False by tauto|].
    intros Hn. apply Hn, list_elem_of_filter. done.
  - rewrite decide_True; [by rewrite decide_True|].
    intros Hin%list_elem_of_filter. tauto.
Qed.

(** C7 (as amended): [filterReadEvents] keeps an event exactly when its stored
    receipt set is not empty and is not a single entry of the excluded user;
    [notifyForReadReceipts] signals those of the room's pending events, and
    they are the ones it removes from the pending table. *)
Theorem notifyForReadReceipts_spec (room local_user : string) (c : Cache) :
  (∀ event_ids excluded_user,
     (∀ e, e ∈ event_ids → ∃ m, stored_receipts room e c = Ret m) →
     filterReadEvents room event_ids excluded_user c
     = Ret (filter (λ e, event_read room excluded_user c e) event_ids)) ∧
  ((∀ e, e ∈ pendingReceiptsEvents room c →
         ∃ m, stored_receipts room e c = Ret m) →
   ∃ c',
     notifyForReadReceipts room local_user c
     = Ret (c',
            newReadReceipts room
              (filter (λ e, event_read room local_user c e)
                 (pendingReceiptsEvents room c))) ∧
     pendingReceiptsEvents room c'
     = filter (λ e, ¬ event_read room local_user c e)
         (pendingReceiptsEvents room c) ∧
     readReceiptsDb c' = readReceiptsDb c).
Proof.
  split; [intros; by apply filterReadEvents_filter|].
  intros Hdec. unfold notifyForReadReceipts.
  rewrite filterReadEvents_filter by done. simpl.
  eexists. split; [reflexivity|].
  destruct (pending_after_removals room
              (filter (λ e, event_read room local_user c e)
                 (pendingReceiptsEvents room c)) c)
    as [-> ->].
  split; [|done]. by apply filter_not_in_filter_sub.
Qed.

Lemma notifyForReadReceipts_spec_witness :
  filterReadEvents "!r:example.org" ["$e1"; "$e2"; "$e3"] "@me:example.org"
    store_with_pending = Ret ["$e2"] ∧
  ∃ c', notifyForReadReceipts "!r:example.org" "@me:example.org"
          store_with_pending
        = Ret (c', Some ("!r:example.org", ["$e2"])) ∧
        pendingReceiptsEvents "!r:example.org" c'
        = ["$e1"; "$e3"].
Proof.
  pose proof (notifyForReadReceipts_spec "!r:example.org" "@me:example.org"
                store_with_pending) as [Hfilter Hnotify].
  assert (Hdec : ∀ e, e ∈ pendingReceiptsEvents "!r:example.org"
                            store_with_pending →
                      ∃ m, stored_receipts "!r:example.org" e store_with_pending
                           = Ret m).
  { intros e He.
    change (e ∈ ["$e1"; "$e2"; "$e3"]) in He. rewrite !elem_of_cons in He.
    destruct He as [->|[->|[->|He]]]; [eexists; reflexivity ..|inversion He]. }
  split.
  - rewrite (Hfilter ["$e1"; "$e2"; "$e3"] "@me:example.org" Hdec).
    reflexivity.
  - destruct (Hnotify Hdec) as (c' & Hc' & Hpending & _).
    exists c'. split; [exact Hc'|exact Hpending].
Defined.

(** C7 as stated fails: an event without any stored receipt is "not exactly
    one local-only entry", yet it is not kept. *)
Lemma filterReadEvents_skips_event_without_receipts :
  stored_receipts "!r:example.org" "$e3" store_with_pending = Ret ∅ ∧
  not_single_local_entry ∅ "@me:example.org" = true ∧
  filterReadEvents "!r:example.org" ["$e3"] "@me:example.org"
    store_with_pending = Ret [] ∧
  ∃ c', notifyForReadReceipts "!r:example.org" "@me:example.org"
          store_with_pending = Ret (c', Some ("!r:example.org", ["$e2"])) ∧
        Encoded {| event_id := "$e3"; room_id := "!r:example.org" |}
        ∈ pendingReceiptsDb c'.
Proof.
  split; [reflexivity|]. split; [reflexivity|]. split; [reflexivity|].
  eexists. split; [reflexivity|]. vm_compute.
  apply list_elem_of_further, list_elem_of_here.
Qed.

(** ** Permission check *)

Lemma to_uint16_range z : (0 ≤ to_uint16 z ≤ uint16_max)%Z.
Proof. unfold to_uint16, uint16_max. pose proof (Z.mod_pos_bound z 65536). lia. Qed.

Lemma foldl_min_le {A} (f : A → Z) (l : list A) (a x : Z) :
  (foldl (λ level ty, Z.min level (f ty)) a l ≤ x)%Z
  ↔ (a ≤ x)%Z ∨ ∃ ty, ty ∈ l ∧ (f ty ≤ x)%Z.
Proof.
  revert a. induction l as [|y l IH]; intros a; simpl.
  - split; [by left|]. intros [?|(ty & Hty & _)]; [done|]. inversion Hty.
  - rewrite IH. split.
    + intros [Hmin|(ty & Hty & Hle)].
      * destruct (Z.min_spec a (f y)) as [[_ Heq]|[_ Heq]]; rewrite Heq in Hmin.
        -- by left.
        -- right. exists y. split; [apply list_elem_of_here|done].
      * right. exists ty. split; [by apply list_elem_of_further|done].
    + intros [Hle|(ty & Hty & Hle)].
      * left. lia.
      * apply elem_of_cons in Hty as [->|Hty].
        -- left. lia.
        -- right. by exists ty.
Qed.

Lemma hasEnoughPowerLevel_result eventTypes room user c :
  (hasEnoughPowerLevel eventTypes room user c).2
  = match power_levels_entry room c with
    | Some (Encoded (PowerLevelsEvent msg)) =>
        bool_decide (min_event_level msg eventTypes
                     ≤ to_uint16 (user_level msg user))%Z
    | _ => false
    end.
Proof.
  unfold hasEnoughPowerLevel, power_levels_entry, open_table.
  destruct (statesDbs c !! room) as [db|]; simpl.
  - destruct (db !! RoomPowerLevels) as [[[msg|other]|raw]|]; done.
  - by rewrite lookup_empty.
Qed.

(** C2 (as amended): [hasEnoughPowerLevel] is true iff the room's stored
    power-levels event parses and the user's level (as [uint16_t]) is at
    least the minimum of 65535 and the levels (as [uint16_t]) required for
    the given event types, i.e. for a non-empty list at least the level of
    one of them; without a stored power-levels event it is false for every
    user and every list of event types. *)
Theorem hasEnoughPowerLevel_spec (eventTypes : list string)
    (room user : string) (c : Cache) :
  ((hasEnoughPowerLevel eventTypes room user c).2 = true
   ↔ ∃ msg, power_levels_entry room c = Some (Encoded (PowerLevelsEvent msg)) ∧
            (min_event_level msg eventTypes ≤ to_uint16 (user_level msg user))%Z) ∧
  (∀ msg, eventTypes ≠ [] →
     (min_event_level msg eventTypes ≤ to_uint16 (user_level msg user))%Z
     ↔ ∃ ty, ty ∈ eventTypes ∧
             (to_uint16 (state_level msg ty) ≤ to_uint16 (user_level msg user))%Z) ∧
  (power_levels_entry room c = None →
   (hasEnoughPowerLevel eventTypes room user c).2 = false).
Proof.
  rewrite hasEnoughPowerLevel_result. split_and!.
  - destruct (power_levels_entry room c) as [[[msg|other]|raw]|].
    + rewrite bool_decide_eq_true. split.
      * intros Hle. by exists msg.
      * intros (msg' & [= <-] & Hle). done.
    + split; [done|]. by intros (? & ? & _).
    + split; [done|]. by intros (? & ? & _).
    + split; [done|]. by intros (? & ? & _).
  - intros msg Hne. unfold min_event_level. rewrite foldl_min_le.
    split; [|by right].
    intros [Hmax|Hex]; [|done].
    destruct eventTypes as [|ty l]; [done|].
    exists ty. split; [apply list_elem_of_here|].
    pose proof (to_uint16_range (state_level msg ty)). lia.
  - by intros ->.
Qed.

Lemma hasEnoughPowerLevel_spec_witness :
  (hasEnoughPowerLevel ["m.room.name"] "!r:example.org" "@admin:example.org"
     store_with_power_levels).2 = true ∧
  (hasEnoughPowerLevel ["m.room.name"] "!r:example.org" "@admin:example.org"
     fresh_cache).2 = false.
Proof.
  split.
  - destruct (hasEnoughPowerLevel_spec ["m.room.name"] "!r:example.org"
                "@admin:example.org" store_with_power_levels) as (Hiff & _).
    apply Hiff. exists sample_power_levels. split; [reflexivity|].
    vm_compute. discriminate.
  - destruct (hasEnoughPowerLevel_spec ["m.room.name"] "!r:example.org"
                "@admin:example.org" fresh_cache) as (_ & _ & Hnone).
    apply Hnone. reflexivity.
Defined.

(** C2 as stated fails: a room without a stored power-levels event restricts
    everything. *)
Lemma hasEnoughPowerLevel_without_power_levels :
  power_levels_entry "!r:example.org" fresh_cache = None ∧
  (hasEnoughPowerLevel ["m.room.message"] "!r:example.org"
     "@alice:example.org" fresh_cache).2 = false.
Proof. split; reflexivity. Qed.

(** ** Restoring the sessions *)

Lemma restore_inbound_ok (l : list (string * blob OlmInboundGroupSession)) st :
  NoDup l.*1 →
  (∀ k v, (k, v) ∈ l → ∃ s, v = Encoded s) →
  ∃ st',
    restore_inbound l st = (st', Ret ()) ∧
    group_outbound_sessions st' = group_outbound_sessions st ∧
    group_outbound_session_data st' = group_outbound_session_data st ∧
    ∀ k, group_inbound_sessions st' !! k
         = match (list_to_map l : gmap string _) !! k with
           | Some (Encoded s) => Some (Some s)
           | _ => group_inbound_sessions st !! k
           end.
Proof.
  revert st. induction l as [|[k0 v0] l IH]; intros st Hnd Hok; simpl.
  - exists st. split_and!; try done.
  - apply NoDup_cons in Hnd as [Hk0 Hnd].
    destruct (Hok k0 v0) as [s0 ->]; [apply list_elem_of_here|]. simpl.
    destruct (IH (set_group_inbound_sessions
                    (<[k0 := Some s0]> (group_inbound_sessions st)) st) Hnd)
      as (st' & Hrun & Hos & Hod & Hin).
    { intros k v Hkv. apply (Hok k v). by apply list_elem_of_further. }
    exists st'. split_and!; try done.
    intros k. rewrite Hin. simpl.
    destruct (decide (k = k0)) as [->|Hne].
    + rewrite lookup_insert_eq.
      rewrite (not_elem_of_list_to_map_1 _ k0) by done.
      by rewrite lookup_insert_eq.
    + by rewrite !lookup_insert_ne by done.
Qed.

Lemma restore_outbound_ok (l : list (string * blob outbound_json)) st :
  NoDup l.*1 →
  (∀ k obj d p, (k, Encoded obj) ∈ l → data_member obj = Some d →
                session_member obj = Some p → ∃ s, p = Encoded s) →
  ∃ st',
    restore_outbound l st = (st', Ret ()) ∧
    group_inbound_sessions st' = group_inbound_sessions st ∧
    ∀ k,
      group_outbound_session_data st' !! k
      = match (list_to_map l : gmap string _) !! k ≫= restored_data with
        | Some d => Some d
        | None => group_outbound_session_data st !! k
        end ∧
      group_outbound_sessions st' !! k
      = match (list_to_map l : gmap string _) !! k ≫= restored_session with
        | Some s => Some (Some s)
        | None => group_outbound_sessions st !! k
        end.
Proof.
  revert st. induction l as [|[k0 v0] l IH]; intros st Hnd Hok; simpl.
  - exists st. split_and!; try done.
  - apply NoDup_cons in Hnd as [Hk0 Hnd].
    assert (Hrest : ∀ k obj d p, (k, Encoded obj) ∈ l →
              data_member obj = Some d → session_member obj = Some p →
              ∃ s, p = Encoded s).
    { intros k obj d p Hkv. apply (Hok k obj d p).
      by apply list_elem_of_further. }
    assert (Hstep : ∃ st1,
      (restore_outbound_entry k0 v0 st = (st1, Ret ())
       ∨ restore_outbound_entry k0 v0 st = (st1, Throw json_exception)) ∧
      group_inbound_sessions st1 = group_inbound_sessions st ∧
      group_outbound_session_data st1
      = match restored_data v0 with
        | Some d => <[k0 := d]> (group_outbound_session_data st)
        | None => group_outbound_session_data st
        end ∧
      group_outbound_sessions st1
      = match restored_session v0 with
        | Some s => <[k0 := Some s]> (group_outbound_sessions st)
        | None => group_outbound_sessions st
        end).
    { unfold restore_outbound_entry.
      destruct v0 as [[[d|] [p|]]|raw]; simpl;
        try (eexists; split; [by right|done]).
      destruct (Hok k0 {| data_member := Some d; session_member := Some p |}
                  d p) as [s ->]; [apply list_elem_of_here|done|done|].
      simpl. eexists. split; [by left|done]. }
    destruct Hstep as (st1 & Hrun1 & Hin1 & Hd1 & Hs1).
    destruct (IH st1 Hnd Hrest) as (st' & Hrun & Hin & Hlook).
    exists st'. split_and!.
    + destruct Hrun1 as [-> | ->]; exact Hrun.
    + congruence.
    + intros k. destruct (Hlook k) as [-> ->]. rewrite Hd1, Hs1.
      destruct (decide (k = k0)) as [->|Hne].
      * rewrite lookup_insert_eq.
        rewrite (not_elem_of_list_to_map_1 _ k0) by done. simpl.
        destruct (restored_data v0), (restored_session v0);
          by rewrite ?lookup_insert_eq.
      * rewrite lookup_insert_ne by done.
        destruct ((list_to_map l : gmap string _) !! k) as [v|]; simpl.
        -- destruct (restored_data v), (restored_session v),
             (restored_data v0), (restored_session v0);
             by rewrite ?lookup_insert_ne by done.
        -- destruct (restored_data v0), (restored_session v0);
             by rewrite ?lookup_insert_ne by done.
Qed.

(** C6 (as amended): when every stored pickle that [restoreSessions] reaches
    can be unpickled, the restore completes; every inbound record and every
    well-formed outbound record is in the mirrors afterwards, and an outbound
    record that is not valid JSON, or has no data member, is skipped: the
    mirrors keep what they had for its room. *)
Theorem restoreSessions_tolerates_bad_json (c : Cache) :
  (∀ k v, inboundMegolmSessionDb c !! k = Some v → ∃ s, v = Encoded s) →
  (∀ k obj d p, outboundMegolmSessionDb c !! k = Some (Encoded obj) →
                data_member obj = Some d → session_member obj = Some p →
                ∃ s, p = Encoded s) →
  ∃ c',
    restoreSessions c = (c', Ret ()) ∧
    (∀ k s, inboundMegolmSessionDb c !! k = Some (Encoded s) →
            group_inbound_sessions (session_storage c') !! k = Some (Some s)) ∧
    (∀ k d s,
       outboundMegolmSessionDb c !! k
       = Some (Encoded {| data_member := Some d;
                          session_member := Some (Encoded s) |}) →
       group_outbound_session_data (session_storage c') !! k = Some d ∧
       group_outbound_sessions (session_storage c') !! k = Some (Some s)) ∧
    (∀ k value,
       outboundMegolmSessionDb c !! k = Some value →
       restored_data value = None →
       group_outbound_session_data (session_storage c') !! k
       = group_outbound_session_data (session_storage c) !! k ∧
       group_outbound_sessions (session_storage c') !! k
       = group_outbound_sessions (session_storage c) !! k).
Proof.
  intros Hin Hout. unfold restoreSessions.
  destruct (restore_inbound_ok
              (ordered_entries bytes_le (inboundMegolmSessionDb c))
              (session_storage c)) as (st1 & -> & Hos1 & Hod1 & Hlook1).
  { apply NoDup_ordered_keys. }
  { intros k v Hkv%elem_of_ordered_entries. by apply (Hin k). }
  destruct (restore_outbound_ok
              (ordered_entries bytes_le (outboundMegolmSessionDb c)) st1)
    as (st2 & -> & Hin2 & Hlook2).
  { apply NoDup_ordered_keys. }
  { intros k obj d p Hkv%elem_of_ordered_entries. by apply (Hout k). }
  rewrite list_to_map_ordered_entries in Hlook1.
  rewrite list_to_map_ordered_entries in Hlook2.
  eexists. split; [reflexivity|]. simpl. split_and!.
  - intros k s Hk. by rewrite Hin2, Hlook1, Hk.
  - intros k d s Hk. destruct (Hlook2 k) as [-> ->]. by rewrite Hk.
  - intros k value Hk Hnone. destruct (Hlook2 k) as [-> ->].
    rewrite Hk, Hos1, Hod1. simpl. rewrite Hnone.
    destruct value as [[[d|] p]|raw]; simpl in *; done.
Qed.

Lemma restoreSessions_tolerates_bad_json_witness :
  ∃ c',
    restoreSessions store_with_bad_outbound_json = (c', Ret ()) ∧
    group_inbound_sessions (session_storage c') !! "hash-b"
    = Some (Some {| inbound_state := "b" |}) ∧
    group_outbound_sessions (session_storage c') !! "!b:example.org"
    = Some (Some {| outbound_state := "b" |}) ∧
    group_outbound_sessions (session_storage c') !! "!a:example.org" = None.
Proof.
  destruct (restoreSessions_tolerates_bad_json store_with_bad_outbound_json)
    as (c' & Hrun & Hinb & Hgood & Hskip).
  - intros k v Hk. change (inboundMegolmSessionDb store_with_bad_outbound_json)
      with ({[ "hash-b" := Encoded {| inbound_state := "b" |} ]}
              : gmap string (blob OlmInboundGroupSession)) in Hk.
    apply lookup_singleton_Some in Hk as [_ <-]. by eexists.
  - intros k obj d p Hk Hd Hp.
    change (outboundMegolmSessionDb store_with_bad_outbound_json)
      with (<["!a:example.org" := Garbled "{"]>
              ({[ "!b:example.org" :=
                    Encoded {| data_member := Some default_session_data;
                               session_member :=
                                 Some (Encoded {| outbound_state := "b" |}) |} ]}
                 : gmap string (blob outbound_json))) in Hk.
    apply lookup_insert_Some in Hk as [[_ Hk]|[_ Hk]]; [discriminate|].
    apply lookup_singleton_Some in Hk as [_ [= <-]].
    simpl in Hp. injection Hp as <-. by eexists.
  - exists c'. split; [exact Hrun|]. split_and!.
    + apply Hinb. reflexivity.
    + apply (Hgood "!b:example.org" default_session_data). reflexivity.
    + destruct (Hskip "!a:example.org" (Garbled "{")) as [_ ->];
        reflexivity.
Defined.

(** C6 as stated fails: a record that cannot be unpickled ends the restore
    with an exception, and the records after it are not restored. *)
Lemma restoreSessions_aborts_on_bad_pickle :
  inboundMegolmSessionDb store_with_bad_inbound !! "hash-a"
  = Some (Garbled "not a pickle") ∧
  inboundMegolmSessionDb store_with_bad_inbound !! "hash-b"
  = Some (Encoded {| inbound_state := "b" |}) ∧
  (restoreSessions store_with_bad_inbound).2 = Throw olm_exception ∧
  group_inbound_sessions
    (session_storage (restoreSessions store_with_bad_inbound).1) !! "hash-b"
  = None.
Proof. split_and!; reflexivity. Qed.

(** ** Message tables: order of the walk *)

Section newest_first_facts.
Context {V : Type}.

Lemma newest_first_total : Total (key_le (V:=V) newest_first).
Proof.
  intros [a ?] [b ?]. unfold key_le, newest_first; simpl.
  rewrite !Is_true_true, !N.leb_le. lia.
Qed.

Lemma newest_first_trans : Transitive (key_le (V:=V) newest_first).
Proof.
  intros [a ?] [b ?] [d ?]. unfold key_le, newest_first; simpl.
  rewrite !Is_true_true, !N.leb_le. lia.
Qed.

Lemma StronglySorted_strict (l : list (N * V)) :
  NoDup l.*1 → StronglySorted (key_le newest_first) l → StronglySorted newer l.
Proof.
  induction l as [|x l IH]; intros Hnd Hs; [constructor|].
  apply NoDup_cons in Hnd as [Hx Hnd].
  apply StronglySorted_cons in Hs as [Hall Hs].
  constructor; [by apply IH|].
  apply Forall_forall. intros y Hy.
  rewrite Forall_forall in Hall. specialize (Hall y Hy).
  unfold key_le, newest_first, newer in *.
  rewrite Is_true_true, N.leb_le in Hall.
  assert (y.1 ≠ x.1); [|lia].
  intros Heq. apply Hx. rewrite <- Heq. by apply list_elem_of_fmap_2.
Qed.

Lemma newest_first_sorted (db : gmap N V) :
  StronglySorted newer (ordered_entries newest_first db).
Proof.
  apply StronglySorted_strict; [apply NoDup_ordered_keys|].
  apply (@StronglySorted_merge_sort _ _ _ newest_first_trans newest_first_total).
Qed.
End newest_first_facts.

Lemma StronglySorted_take {A} (R : relation A) n l :
  StronglySorted R l → StronglySorted R (take n l).
Proof.
  intros Hs. rewrite <- (take_drop n l) in Hs.
  by apply StronglySorted_app_1_l in Hs.
Qed.

Lemma StronglySorted_reverse {A} (R : relation A) l :
  StronglySorted R l → StronglySorted (flip R) (reverse l).
Proof.
  induction 1 as [|x l Hs IH Hall]; [constructor|].
  rewrite reverse_cons. apply StronglySorted_app_2; [|done|repeat constructor].
  intros x1 x2 Hx1 Hx2. rewrite elem_of_reverse in Hx1.
  apply list_elem_of_singleton in Hx2 as ->.
  rewrite Forall_forall in Hall. by apply Hall.
Qed.

Lemma restorable_entries_sorted l :
  StronglySorted newer l → StronglySorted newer (restorable_entries l).
Proof.
  unfold restorable_entries.
  induction 1 as [|x l Hs IH Hall]; simpl; [constructor|].
  destruct (restorable x.2) as [y|]; simpl; [|done].
  constructor; [done|].
  apply Forall_forall. intros z (kv & Hkv & Hz)%list_elem_of_omap.
  rewrite Forall_forall in Hall. specialize (Hall kv Hkv).
  destruct (restorable kv.2); simplify_eq/=. done.
Qed.

Lemma elem_of_restorable_entries l k y :
  (k, y) ∈ restorable_entries l ↔ ∃ v, (k, v) ∈ l ∧ restorable v = Some y.
Proof.
  unfold restorable_entries. rewrite list_elem_of_omap. split.
  - intros ([k' v] & Hkv & Hy). simpl in Hy.
    destruct (restorable v) as [y'|] eqn:Hv; simplify_eq/=. by exists v.
  - intros (v & Hkv & Hv). exists (k, v). simpl. by rewrite Hv.
Qed.

(** ** Timeline *)

Local Opaque MAX_RESTORED_MESSAGES.

Lemma timeline_scan_ok (l : list (N * blob message_json)) index timeline :
  (∀ kv, kv ∈ l → decodes kv.2) →
  timeline_scan l index timeline
  = Ret {| timeline_events :=
             timeline_events timeline
             ++ ((λ x, x.2.1) <$> take (MAX_RESTORED_MESSAGES - index)
                                    (restorable_entries l));
           prev_batch :=
             foldl (λ _ x, x.2.2) (prev_batch timeline)
               (take (MAX_RESTORED_MESSAGES - index) (restorable_entries l)) |}.
Proof.
  revert index timeline.
  induction l as [|[ts msg] l IH]; intros index timeline Hdec.
  - simpl. rewrite take_nil. simpl. rewrite app_nil_r. by destruct timeline.
  - assert (Hl : ∀ kv, kv ∈ l → decodes kv.2)
      by (intros; apply Hdec; by apply list_elem_of_further).
    assert (Hmsg : decodes msg) by apply (Hdec (ts, msg)), list_elem_of_here.
    simpl. case_decide as Hidx.
    + replace (MAX_RESTORED_MESSAGES - index)
        with (S (MAX_RESTORED_MESSAGES - S index)) by lia.
      unfold restorable_entries. simpl.
      destruct msg as [[[[event|raw]|] [[token|raw']|]]|raw]; simpl in *;
        try done; rewrite IH by done; simpl;
        try (by replace (S (MAX_RESTORED_MESSAGES - S index))
               with (MAX_RESTORED_MESSAGES - index) by lia).
      by rewrite <- app_assoc.
    + replace (MAX_RESTORED_MESSAGES - index) with 0 by lia.
      rewrite take_0. simpl. rewrite app_nil_r. by destruct timeline.
Qed.

Local Transparent MAX_RESTORED_MESSAGES.

Lemma getTimelineMessages_result (room : string) (c : Cache) :
  (∀ k v, messages_of room c !! k = Some v → decodes v) →
  ∃ c',
    getTimelineMessages room c
    = Ret (c',
           {| timeline_events :=
                reverse ((λ x, x.2.1) <$>
                           take MAX_RESTORED_MESSAGES
                             (restorable_entries
                                (ordered_entries newest_first
                                   (messages_of room c))));
              prev_batch :=
                foldl (λ _ x, x.2.2) EmptyString
                  (take MAX_RESTORED_MESSAGES
                     (restorable_entries
                        (ordered_entries newest_first (messages_of room c)))) |})
    ∧ messages_of room c' = messages_of room c.
Proof.
  intros Hdec. unfold getTimelineMessages, open_table.
  assert (Hscan : ∀ kv, kv ∈ ordered_entries newest_first (messages_of room c) →
                        decodes kv.2).
  { intros [k v] Hkv%elem_of_ordered_entries. by apply (Hdec k). }
  unfold messages_of in *.
  destruct (messagesDbs c !! room) as [db|] eqn:Hdb; simpl in *.
  - rewrite timeline_scan_ok by done. rewrite Nat.sub_0_r. simpl.
    eexists. split; [reflexivity|]. simpl. by rewrite Hdb.
  - rewrite timeline_scan_ok by done. rewrite Nat.sub_0_r. simpl.
    eexists. split; [reflexivity|]. simpl. by rewrite lookup_insert_eq.
Qed.

(** C3 (as amended): when the stored messages of the room decode,
    [getTimelineMessages] returns at most 30 events; they are the most recent
    of the entries that have both an event and a token (a left-out entry of
    that kind is older than every returned one, and is left out only when 30
    are returned), in ascending order of their keys; entries that lack the
    event or the token member are skipped without ending the scan. *)
Theorem getTimelineMessages_spec (room : string) (c : Cache) :
  (∀ k v, messages_of room c !! k = Some v → decodes v) →
  ∃ c' timeline (kept : list (N * (TimelineEvent * string))),
    getTimelineMessages room c = Ret (c', timeline) ∧
    messages_of room c' = messages_of room c ∧
    timeline_events timeline = (λ x, x.2.1) <$> kept ∧
    (length (timeline_events timeline) ≤ MAX_RESTORED_MESSAGES)%nat ∧
    StronglySorted (λ a b, (a.1 < b.1)%N) kept ∧
    (∀ k y, (k, y) ∈ kept →
            ∃ v, messages_of room c !! k = Some v ∧ restorable v = Some y) ∧
    (∀ k v y, messages_of room c !! k = Some v → restorable v = Some y →
              (k, y) ∉ kept →
              length kept = MAX_RESTORED_MESSAGES ∧
              ∀ x, x ∈ kept → (k < x.1)%N).
Proof.
  intros Hdec.
  destruct (getTimelineMessages_result room c Hdec) as (c' & Hrun & Hsame).
  set (entries := restorable_entries
                    (ordered_entries newest_first (messages_of room c))) in *.
  assert (Hsorted : StronglySorted newer entries)
    by apply restorable_entries_sorted, newest_first_sorted.
  assert (Hel : ∀ k y, (k, y) ∈ entries ↔
                       ∃ v, messages_of room c !! k = Some v ∧
                            restorable v = Some y).
  { intros k y. unfold entries. rewrite elem_of_restorable_entries.
    by setoid_rewrite elem_of_ordered_entries. }
  eexists c', _, (reverse (take MAX_RESTORED_MESSAGES entries)).
  split; [exact Hrun|]. simpl. split_and!.
  - done.
  - by rewrite fmap_reverse.
  - rewrite length_reverse, length_fmap, length_take. lia.
  - apply (StronglySorted_reverse newer), StronglySorted_take, Hsorted.
  - intros k y Hk. rewrite elem_of_reverse in Hk. apply Hel.
    rewrite <- (take_drop MAX_RESTORED_MESSAGES entries).
    apply elem_of_app. by left.
  - intros k v y Hk Hv Hnot. rewrite elem_of_reverse in Hnot.
    assert (Hin : (k, y) ∈ entries) by (apply Hel; by exists v).
    rewrite <- (take_drop MAX_RESTORED_MESSAGES entries) in Hin, Hsorted.
    apply elem_of_app in Hin as [Hin|Hin]; [done|].
    split.
    + rewrite length_reverse, length_take.
      assert (length (drop MAX_RESTORED_MESSAGES entries) ≠ 0)
        by (destruct (drop _ entries); [inversion Hin|done]).
      rewrite length_drop in *. lia.
    + intros x Hx. rewrite elem_of_reverse in Hx.
      apply (StronglySorted_app_1_elem_of _ _ _ _ _ Hsorted Hx Hin).
Qed.

Lemma getTimelineMessages_spec_witness :
  ∃ c' timeline (kept : list (N * (TimelineEvent * string))),
    getTimelineMessages "!r:example.org" store_with_partial_message
    = Ret (c', timeline) ∧
    timeline_events timeline = (λ x, x.2.1) <$> kept ∧
    (length (timeline_events timeline) ≤ MAX_RESTORED_MESSAGES)%nat ∧
    StronglySorted (λ a b, (a.1 < b.1)%N) kept.
Proof.
  destruct (getTimelineMessages_spec "!r:example.org"
              store_with_partial_message)
    as (c' & timeline & kept & Hrun & _ & Hevents & Hlen & Hsorted & _).
  - apply (bool_decide_unpack
             (map_Forall (λ (_ : N) v, Is_true (decodes v))
                (messages_of "!r:example.org" store_with_partial_message))).
    vm_compute. exact I.
  - exists c', timeline, kept. split; [exact Hrun|].
    split; [exact Hevents|]. split; [exact Hlen|exact Hsorted].
Defined.

Example getTimelineMessages_skips_entry_without_token :
  (λ r, timeline_events r.2)
    <$> getTimelineMessages "!r:example.org" store_with_partial_message
  = Ret [ {| event_json := "first" |}; {| event_json := "third" |} ].
Proof. vm_compute. reflexivity. Qed.

(** C3 as stated fails: a stored message that is not JSON is not skipped, the
    exception of the parser ends the scan and no entry is returned. *)
Lemma getTimelineMessages_throws_on_bad_json :
  messages_of "!r:example.org" store_with_bad_message !! 200%N
  = Some (Garbled "{") ∧
  restorable_entries
    (ordered_entries newest_first
       (messages_of "!r:example.org" store_with_bad_message))
  = [ (300%N, ({| event_json := "third" |}, "t3"));
      (100%N, ({| event_json := "first" |}, "t1")) ] ∧
  getTimelineMessages "!r:example.org" store_with_bad_message
  = Throw json_exception.
Proof. split_and!; vm_compute; reflexivity. Qed.

(** ** Retention *)

Local Opaque MAX_RESTORED_MESSAGES.

Lemma lookup_delete_beyond_cap {V} (l : list (N * V)) idx (db : gmap N V) k :
  delete_beyond_cap l idx db !! k
  = if decide (k ∈ (drop (MAX_RESTORED_MESSAGES - idx) l).*1) then None
    else db !! k.
Proof.
  revert idx db. induction l as [|[ts v] l IH]; intros idx db; simpl.
  - rewrite drop_nil. by rewrite decide_False by apply not_elem_of_nil.
  - rewrite IH.
    destruct (decide (MAX_RESTORED_MESSAGES < idx + 1)%nat) as [Hidx|Hidx].
    + replace (MAX_RESTORED_MESSAGES - (idx + 1)) with 0 by lia.
      replace (MAX_RESTORED_MESSAGES - idx) with 0 by lia.
      rewrite !drop_0, fmap_cons.
      destruct (decide (k = ts)) as [->|Hne].
      * rewrite lookup_delete_eq.
        rewrite (decide_True (P := ts ∈ (ts, v).1 :: l.*1)) by apply list_elem_of_here.
        by case_decide.
      * rewrite lookup_delete_ne by done.
        destruct (decide (k ∈ l.*1)) as [Hin|Hin].
        -- by rewrite decide_True by by apply list_elem_of_further.
        -- rewrite decide_False; [done|]. rewrite elem_of_cons. tauto.
    + replace (MAX_RESTORED_MESSAGES - idx)
        with (S (MAX_RESTORED_MESSAGES - (idx + 1))) by lia.
      done.
Qed.

Lemma delete_beyond_cap_take {V} (db : gmap N V) :
  delete_beyond_cap (ordered_entries newest_first db) 0 db
  = list_to_map (take MAX_RESTORED_MESSAGES (ordered_entries newest_first db)).
Proof.
  apply map_eq. intros k. rewrite lookup_delete_beyond_cap, Nat.sub_0_r.
  pose proof (NoDup_ordered_keys newest_first db) as Hnd.
  pose proof (λ k' v, elem_of_ordered_entries newest_first db k' v) as Hel.
  set (l := ordered_entries newest_first db) in *.
  rewrite <- (take_drop MAX_RESTORED_MESSAGES l) in Hnd, Hel.
  rewrite fmap_app in Hnd. apply NoDup_app in Hnd as (Hnd1 & Hdisj & _).
  case_decide as Hk.
  - symmetry. apply not_elem_of_list_to_map_1. intros Hin. by apply (Hdisj k).
  - destruct (db !! k) as [v|] eqn:Hdb.
    + symmetry. apply elem_of_list_to_map; [done|].
      apply Hel in Hdb. apply elem_of_app in Hdb as [Hin|Hin]; [done|].
      destruct Hk. by apply (list_elem_of_fmap_2 fst) in Hin.
    + destruct (list_to_map (take _ l) !! k) as [v|] eqn:Hv; [|done].
      apply elem_of_list_to_map in Hv; [|done].
      assert (db !! k = Some v) by (apply Hel, elem_of_app; by left).
      congruence.
Qed.

Local Transparent MAX_RESTORED_MESSAGES.

Lemma messages_of_delete_old_in_room id room c :
  messages_of room (delete_old_in_room id c)
  = (if decide (room = id) then retained (messages_of room c)
     else messages_of room c)
  ∧ roomsDb (delete_old_in_room id c) = roomsDb c.
Proof.
  unfold delete_old_in_room, open_table, messages_of, retained.
  destruct (messagesDbs c !! id) as [db|] eqn:Hdb; simpl.
  - case_decide as Hsize; simpl.
    + split; [|done]. case_decide as Hroom; [|done].
      subst. rewrite Hdb. simpl. by rewrite decide_True by done.
    + split; [|done]. case_decide as Hroom.
      * subst. rewrite lookup_insert_eq, Hdb. simpl.
        by rewrite decide_False by done.
      * by rewrite lookup_insert_ne by done.
  - rewrite map_size_empty. simpl. split; [|done].
    case_decide as Hroom.
    + subst. rewrite lookup_insert_eq, Hdb. simpl.
      by rewrite map_size_empty.
    + by rewrite lookup_insert_ne by done.
Qed.

Lemma messages_of_delete_old ids room c :
  NoDup ids →
  messages_of room (foldl (λ c id, delete_old_in_room id c) c ids)
  = if decide (room ∈ ids) then retained (messages_of room c)
    else messages_of room c.
Proof.
  revert c. induction ids as [|id ids IH]; intros c Hnd; simpl.
  - done.
  - apply NoDup_cons in Hnd as [Hid Hnd]. rewrite IH by done.
    destruct (messages_of_delete_old_in_room id room c) as [-> _].
    destruct (decide (room = id)) as [->|Hne].
    + rewrite (decide_False (P := id ∈ ids)) by done.
      by rewrite decide_True by apply list_elem_of_here.
    + destruct (decide (room ∈ ids)) as [Hin|Hin].
      * by rewrite decide_True by by apply list_elem_of_further.
      * rewrite decide_False; [done|]. rewrite elem_of_cons. tauto.
Qed.

Lemma elem_of_getRoomIds room c :
  room ∈ getRoomIds c ↔ is_Some (roomsDb c !! room).
Proof.
  unfold getRoomIds. rewrite list_elem_of_fmap. split.
  - intros ([k v] & -> & Hkv). apply elem_of_ordered_entries in Hkv. by exists v.
  - intros [v Hv]. exists (room, v). split; [done|].
    by apply elem_of_ordered_entries.
Qed.

Lemma messages_of_deleteOldMessages room c :
  messages_of room (deleteOldMessages c)
  = if decide (is_Some (roomsDb c !! room)) then retained (messages_of room c)
    else messages_of room c.
Proof.
  unfold deleteOldMessages.
  rewrite messages_of_delete_old by apply NoDup_ordered_keys.
  pose proof (elem_of_getRoomIds room c). repeat case_decide; tauto.
Qed.



Example deleteOldMessages_keeps_latest :
  (ordered_entries newest_first
     (messages_of "!r:example.org"
        (deleteOldMessages (store_with_messages 91)))).*1
  = N.of_nat <$> reverse (seq 62 30).
Proof. vm_compute. reflexivity. Qed.

(** ** Room search *)



Lemma multimap_emplace_perm {K V} (lt : K → K → bool) k (v : V) items :
  multimap_emplace lt k v items ≡ₚ (k, v) :: items.
Proof.
  induction items as [|[k' v'] items IH]; simpl; [done|].
  destruct (lt k k'); [done|]. rewrite IH. apply Permutation_swap.
Qed.








(** * Further properties *)

(** ** Sessions: saving, looking up, restoring *)

Section inbound_roundtrip.
Variable to_hash : MegolmSessionIndex → string.

(** X1: a saved inbound session is found again: the lookup returns it without
    changing the store, the index exists, the pickle is in the table, and an
    index with another hash is as before. *)
Theorem saveInboundMegolmSession_lookup (index : MegolmSessionIndex)
    (session : OlmInboundGroupSession) (c : Cache) :
  ∃ c1,
    saveInboundMegolmSession to_hash index (Some session) c = Ret c1 ∧
    getInboundMegolmSession to_hash index c1 = (c1, Some session) ∧
    inboundMegolmSessionExists to_hash index c1 = true ∧
    inboundMegolmSessionDb c1 !! to_hash index = Some (Encoded session) ∧
    ∀ other, to_hash other ≠ to_hash index →
             inboundMegolmSessionExists to_hash other c1
             = inboundMegolmSessionExists to_hash other c ∧
             inboundMegolmSessionDb c1 !! to_hash other
             = inboundMegolmSessionDb c !! to_hash other.
Proof.
  eexists. split; [reflexivity|].
  unfold getInboundMegolmSession, inboundMegolmSessionExists, subscript.
  simpl. rewrite !lookup_insert_eq. split_and!; try done.
  intros other Hne. by rewrite !lookup_insert_ne by done.
Qed.
End inbound_roundtrip.




Section inbound_restore.
Variable to_hash : MegolmSessionIndex → string.


End inbound_restore.

Lemma saveInboundMegolmSession_lookup_witness :
  ∃ c1,
    saveInboundMegolmSession sample_hash sample_index
      (Some {| inbound_state := "s" |}) fresh_cache = Ret c1 ∧
    getInboundMegolmSession sample_hash sample_index c1
    = (c1, Some {| inbound_state := "s" |}) ∧
    inboundMegolmSessionExists sample_hash other_index c1
    = inboundMegolmSessionExists sample_hash other_index fresh_cache.
Proof.
  destruct (saveInboundMegolmSession_lookup sample_hash sample_index
              {| inbound_state := "s" |} fresh_cache)
    as (c1 & Hsave & Hget & _ & _ & Hother).
  exists c1. split; [exact Hsave|]. split; [exact Hget|].
  apply (Hother other_index). vm_compute. discriminate.
Defined.


(** X3: a saved outbound session can be read back and updated: after
    [saveOutboundMegolmSession] the session exists and
    [getOutboundMegolmSession] returns the saved session and data without
    changing the store; a following [updateOutboundMegolmSession] changes
    the message index only, in the mirror and in the stored record alike. *)
Theorem saveOutboundMegolmSession_then_update (room : string)
    (data : OutboundGroupSessionData) (session : OlmOutboundGroupSession)
    (new_index : Z) (c : Cache) :
  ∃ c1 c2,
    saveOutboundMegolmSession room data (Some session) c = Ret c1 ∧
    outboundMegolmSessionExists room c1 = true ∧
    getOutboundMegolmSession room c1 = (c1, (Some session, data)) ∧
    updateOutboundMegolmSession room new_index c1 = Ret c2 ∧
    getOutboundMegolmSession room c2
    = (c2, (Some session, set_message_index new_index data)) ∧
    outboundMegolmSessionDb c2 !! room
    = Some (Encoded
              {| data_member := Some (set_message_index new_index data);
                 session_member := Some (pickle session) |}).
Proof.
  eexists _, _. split; [reflexivity|].
  unfold outboundMegolmSessionExists, getOutboundMegolmSession,
    updateOutboundMegolmSession, outboundMegolmSessionExists, subscript.
  simpl. rewrite !lookup_insert_eq. simpl.
  split; [done|]. split; [reflexivity|]. split; [reflexivity|]. simpl.
  rewrite !lookup_insert_eq. done.
Qed.

(** X4: [getOutboundMegolmSession] for a room without entries in the outbound
    mirrors returns a null session and default data, and leaves those
    defaults in both mirrors, so that [outboundMegolmSessionExists] answers
    true afterwards although nothing was saved; the table is as before. *)
Theorem getOutboundMegolmSession_inserts_defaults (room : string) (c : Cache) :
  group_outbound_sessions (session_storage c) !! room = None →
  group_outbound_session_data (session_storage c) !! room = None →
  outboundMegolmSessionExists room c = false ∧
  (getOutboundMegolmSession room c).2 = (None, default_session_data) ∧
  outboundMegolmSessionExists room (getOutboundMegolmSession room c).1 = true ∧
  outboundMegolmSessionDb (getOutboundMegolmSession room c).1
  = outboundMegolmSessionDb c.
Proof.
  intros Hs Hd.
  unfold outboundMegolmSessionExists, getOutboundMegolmSession, subscript.
  rewrite Hs, Hd. simpl. rewrite !lookup_insert_eq.
  split_and!; try done.
Qed.

Lemma getOutboundMegolmSession_inserts_defaults_witness :
  outboundMegolmSessionExists "!r:example.org" fresh_cache = false ∧
  outboundMegolmSessionExists "!r:example.org"
    (getOutboundMegolmSession "!r:example.org" fresh_cache).1 = true.
Proof.
  destruct (getOutboundMegolmSession_inserts_defaults "!r:example.org"
              fresh_cache) as (Hbefore & _ & Hafter & _);
    [reflexivity|reflexivity|].
  split; [exact Hbefore|exact Hafter].
Defined.

(** X5: [updateOutboundMegolmSession] for one room never changes what the
    mirrors and the outbound table hold for another room, nor the inbound
    mirror and table. *)
Theorem updateOutboundMegolmSession_other_rooms (room other : string)
    (new_index : Z) (c c' : Cache) :
  updateOutboundMegolmSession room new_index c = Ret c' →
  other ≠ room →
  group_outbound_sessions (session_storage c') !! other
  = group_outbound_sessions (session_storage c) !! other ∧
  group_outbound_session_data (session_storage c') !! other
  = group_outbound_session_data (session_storage c) !! other ∧
  outboundMegolmSessionDb c' !! other = outboundMegolmSessionDb c !! other ∧
  group_inbound_sessions (session_storage c')
  = group_inbound_sessions (session_storage c) ∧
  inboundMegolmSessionDb c' = inboundMegolmSessionDb c.
Proof.
  unfold updateOutboundMegolmSession, subscript. intros Hrun Hne.
  destruct (outboundMegolmSessionExists room c); simpl in Hrun;
    [|by injection Hrun as <-].
  destruct (group_outbound_session_data (session_storage c) !! room)
    as [data|] eqn:Hd;
    destruct (group_outbound_sessions (session_storage c) !! room)
      as [[session|]|] eqn:Hs; simpl in Hrun; try done;
    injection Hrun as <-; simpl;
    rewrite ?lookup_insert_ne by done; done.
Qed.

Lemma updateOutboundMegolmSession_other_rooms_witness :
  ∃ c',
    updateOutboundMegolmSession "!r:example.org" 7 room_with_session = Ret c' ∧
    outboundMegolmSessionDb c' !! "!q:example.org"
    = outboundMegolmSessionDb room_with_session !! "!q:example.org".
Proof.
  eexists. split; [reflexivity|].
  eapply (updateOutboundMegolmSession_other_rooms "!r:example.org"
            "!q:example.org" 7 room_with_session);
    [reflexivity|discriminate].
Defined.

(** ** Sync state and media *)

(** X6: the sync token, the olm account and the format marker are kept under
    three keys of one table and do not disturb each other: each is read back
    as written, and writing one leaves what is read for the other two. *)
Theorem sync_state_entries_independent (token data : string) (c : Cache) :
  (nextBatchToken (setNextBatchToken token c) = token ∧
   isInitialized (setNextBatchToken token c) = true ∧
   restoreOlmAccount (setNextBatchToken token c) = restoreOlmAccount c ∧
   isFormatValid (setNextBatchToken token c) = isFormatValid c) ∧
  (restoreOlmAccount (saveOlmAccount data c) = data ∧
   nextBatchToken (saveOlmAccount data c) = nextBatchToken c ∧
   isInitialized (saveOlmAccount data c) = isInitialized c ∧
   isFormatValid (saveOlmAccount data c) = isFormatValid c) ∧
  (nextBatchToken (setCurrentFormat c) = nextBatchToken c ∧
   isInitialized (setCurrentFormat c) = isInitialized c ∧
   restoreOlmAccount (setCurrentFormat c) = restoreOlmAccount c).
Proof.
  unfold nextBatchToken, isInitialized, restoreOlmAccount, isFormatValid,
    setNextBatchToken, saveOlmAccount, setCurrentFormat. simpl.
  rewrite !lookup_insert_eq.
  rewrite !(lookup_insert_ne _ NEXT_BATCH_KEY) by done.
  rewrite !(lookup_insert_ne _ OLM_ACCOUNT_KEY) by done.
  rewrite !(lookup_insert_ne _ CACHE_FORMAT_VERSION_KEY) by done.
  split_and!; done.
Qed.



(** ** Read receipts, continued *)

Lemma greater_emplace_sorted {V} k (v : V) items :
  StronglySorted later_first items →
  StronglySorted later_first (multimap_emplace greater k v items).
Proof.
  induction 1 as [|[k' v'] items Hs IH Hall]; simpl.
  - repeat constructor.
  - unfold greater. destruct (N.ltb_spec k' k) as [Hlt|Hge].
    + constructor; [by constructor|].
      constructor; [unfold later_first; simpl; lia|].
      eapply Forall_impl; [exact Hall|].
      unfold later_first; simpl. intros; lia.
    + constructor; [done|]. rewrite multimap_emplace_perm.
      constructor; [by unfold later_first|done].
Qed.

Lemma cached_receipts_sorted_perm (l : list (string * N)) acc :
  StronglySorted later_first acc →
  StronglySorted later_first
    (foldl (λ receipts v, multimap_emplace greater v.2 v.1 receipts) acc l) ∧
  foldl (λ receipts v, multimap_emplace greater v.2 v.1 receipts) acc l
  ≡ₚ acc ++ ((λ v, (v.2, v.1)) <$> l).
Proof.
  revert acc. induction l as [|x l IH]; intros acc Hs; simpl.
  - by rewrite app_nil_r.
  - destruct (IH (multimap_emplace greater x.2 x.1 acc)) as [Hsorted Hperm];
      [by apply greater_emplace_sorted|].
    split; [done|].
    rewrite Hperm, multimap_emplace_perm. simpl.
    by rewrite <- Permutation_middle.
Qed.

(** X8: [readReceipts] returns the stored receipts of the event as (time
    stamp, user) pairs, the latest first, one pair per stored user; it
    returns nothing when the event has no entry, and a stored value that is
    not JSON makes it throw (only engine errors are caught). *)
Theorem readReceipts_latest_first (event room : string) (c : Cache) :
  (readReceiptsDb c !! {| event_id := event; room_id := room |} = None →
   readReceipts event room c = Ret []) ∧
  (∀ raw, readReceiptsDb c !! {| event_id := event; room_id := room |}
          = Some (Garbled raw) →
          readReceipts event room c = Throw json_exception) ∧
  (∀ values, readReceiptsDb c !! {| event_id := event; room_id := room |}
             = Some (Encoded values) →
     ∃ receipts,
       readReceipts event room c = Ret receipts ∧
       StronglySorted later_first receipts ∧
       length receipts = size values ∧
       ∀ ts user, (ts, user) ∈ receipts ↔ values !! user = Some ts).
Proof.
  unfold readReceipts. split_and!.
  - by intros ->.
  - by intros raw ->.
  - intros values ->. simpl. eexists. split; [reflexivity|].
    destruct (cached_receipts_sorted_perm
                (ordered_entries bytes_le values) []) as [Hsorted Hperm];
      [constructor|].
    simpl in Hperm. split_and!.
    + done.
    + by rewrite Hperm, length_fmap, length_ordered_entries.
    + intros ts user. rewrite Hperm, list_elem_of_fmap. split.
      * intros ([u t] & [= -> ->] & Hin). by apply elem_of_ordered_entries in Hin.
      * intros Hlook. exists (user, ts). split; [done|].
        by apply elem_of_ordered_entries.
Qed.

Lemma readReceipts_latest_first_witness :
  ∃ receipts,
    readReceipts "$e2" "!r:example.org" store_with_pending = Ret receipts ∧
    StronglySorted later_first receipts ∧
    length receipts = 2.
Proof.
  destruct (readReceipts_latest_first "$e2" "!r:example.org" store_with_pending)
    as (_ & _ & Hstored).
  destruct (Hstored {[ "@me:example.org" := 100%N; "@bob:example.org" := 150%N ]})
    as (receipts & Hrun & Hsorted & Hlen & _); [reflexivity|].
  exists receipts. split; [exact Hrun|]. split; [exact Hsorted|].
  rewrite Hlen. reflexivity.
Defined.

Lemma update_event_receipts_fold room
    (l : list (string * gmap string N))
    (db : gmap ReadReceiptKey (blob (gmap string N))) :
  NoDup l.*1 →
  (∀ event new, (event, new) ∈ l →
     db !! {| event_id := event; room_id := room |} = None
     ∨ ∃ saved, db !! {| event_id := event; room_id := room |}
                = Some (Encoded saved)) →
  ∃ db',
    foldl (λ acc receipt, acc ≫= update_event_receipts room receipt.1 receipt.2)
      (Ret db) l = Ret db' ∧
    ∀ key,
      db' !! key
      = if decide (room_id key = room) then
          match (list_to_map l : gmap string _) !! event_id key with
          | Some new =>
              Some (Encoded
                      (match db !! key with
                       | Some (Encoded saved) => saved
                       | _ => ∅
                       end ∪ new))
          | None => db !! key
          end
        else db !! key.
Proof.
  revert db. induction l as [|[event new] l IH]; intros db Hnd Hdec.
  - exists db. split; [done|]. intros key. simpl. by case_decide.
  - apply NoDup_cons in Hnd as [Hevent Hnd]. simpl.
    set (key0 := {| event_id := event; room_id := room |}).
    assert (Hstep : update_event_receipts room event new db
                    = Ret (<[key0 := Encoded
                                       (match db !! key0 with
                                        | Some (Encoded saved) => saved
                                        | _ => ∅
                                        end ∪ new)]> db)).
    { unfold update_event_receipts, key0.
      destruct (Hdec event new) as [Hnone|[saved Hsaved]];
        [apply list_elem_of_here| |].
      - rewrite Hnone. simpl. by rewrite merge_receipts_union.
      - rewrite Hsaved. simpl. by rewrite merge_receipts_union. }
    rewrite Hstep.
    destruct (IH (<[key0 := Encoded
                              (match db !! key0 with
                               | Some (Encoded saved) => saved
                               | _ => ∅
                               end ∪ new)]> db) Hnd)
      as (db' & Hrun & Hlook).
    { intros event' new' Hin.
      assert (event' ≠ event).
      { intros ->. apply Hevent. by apply (list_elem_of_fmap_2 fst) in Hin. }
      rewrite lookup_insert_ne by (unfold key0; congruence).
      apply (Hdec event' new'). by apply list_elem_of_further. }
    exists db'. split; [done|]. intros key. rewrite Hlook.
    destruct key as [e r]. simpl.
    destruct (decide (r = room)) as [->|Hr]; simpl.
    + destruct (decide (e = event)) as [->|He].
      * rewrite lookup_insert_eq.
        rewrite (not_elem_of_list_to_map_1 _ event) by done.
        fold key0. by rewrite lookup_insert_eq.
      * rewrite (lookup_insert_ne (list_to_map l)) by congruence.
        by rewrite !(lookup_insert_ne db) by (unfold key0; congruence).
    + by rewrite !(lookup_insert_ne db) by (unfold key0; congruence).
Qed.

(** X9: [updateReadReceipt] with receipts for any number of events: when the
    stored sets of these events decode, every one of them becomes the stored
    set joined with the new entries, stored entries winning; it never loses a
    stored receipt, and it leaves the events it was not given and the other
    rooms as they were. *)
Theorem updateReadReceipt_all_events (room : string)
    (receipts : gmap string (gmap string N)) (c : Cache) :
  (∀ event new, receipts !! event = Some new →
                ∃ saved, stored_receipts room event c = Ret saved) →
  ∃ c',
    updateReadReceipt room receipts c = Ret c' ∧
    (∀ event new saved,
       receipts !! event = Some new →
       stored_receipts room event c = Ret saved →
       stored_receipts room event c' = Ret (saved ∪ new) ∧
       saved ⊆ saved ∪ new) ∧
    (∀ event, receipts !! event = None →
              readReceiptsDb c' !! {| event_id := event; room_id := room |}
              = readReceiptsDb c !! {| event_id := event; room_id := room |}) ∧
    (∀ event other, other ≠ room →
       readReceiptsDb c' !! {| event_id := event; room_id := other |}
       = readReceiptsDb c !! {| event_id := event; room_id := other |}).
Proof.
  intros Hdec.
  destruct (update_event_receipts_fold room (ordered_entries bytes_le receipts)
              (readReceiptsDb c)) as (db' & Hrun & Hlook).
  { apply NoDup_ordered_keys. }
  { intros event new Hin%elem_of_ordered_entries.
    destruct (Hdec event new Hin) as [saved Hsaved].
    unfold stored_receipts in Hsaved.
    destruct (readReceiptsDb c !! _) as [[saved'|raw]|]; simplify_eq/=;
      [right; by eexists|by left]. }
  rewrite list_to_map_ordered_entries in Hlook.
  unfold updateReadReceipt. rewrite Hrun. simpl.
  eexists. split; [reflexivity|]. split_and!.
  - intros event new saved Hnew Hsaved.
    split; [|apply map_union_subseteq_l].
    unfold stored_receipts in *. simpl. rewrite Hlook. simpl.
    rewrite decide_True by done. rewrite Hnew. simpl.
    destruct (readReceiptsDb c !! _) as [[saved'|raw]|]; by simplify_eq/=.
  - intros event Hnone. simpl. rewrite Hlook. simpl.
    rewrite decide_True by done. by rewrite Hnone.
  - intros event other Hne. simpl. rewrite Hlook. simpl.
    by rewrite decide_False by done.
Qed.

Lemma updateReadReceipt_all_events_witness :
  ∃ c',
    updateReadReceipt "!r:example.org" sample_receipts store_with_pending
    = Ret c' ∧
    stored_receipts "!r:example.org" "$e1" c'
    = Ret ({[ "@me:example.org" := 100%N ]} ∪ {[ "@bob:example.org" := 150%N ]}) ∧
    readReceiptsDb c' !! {| event_id := "$e3"; room_id := "!r:example.org" |}
    = readReceiptsDb store_with_pending
      !! {| event_id := "$e3"; room_id := "!r:example.org" |}.
Proof.
  destruct (updateReadReceipt_all_events "!r:example.org" sample_receipts
              store_with_pending) as (c' & Hrun & Hmerged & Hkept & _).
  - intros event new Hnew.
    change sample_receipts
      with (<["$e1" := {[ "@bob:example.org" := 150%N ]}]>
              ({[ "$e2" := {[ "@me:example.org" := 170%N;
                              "@bob:example.org" := 180%N ]} ]}
                 : gmap string (gmap string N))) in Hnew.
    apply lookup_insert_Some in Hnew as [[<- _]|[_ Hnew]];
      [eexists; reflexivity|].
    apply lookup_singleton_Some in Hnew as [<- _]. eexists; reflexivity.
  - exists c'. split; [exact Hrun|]. split.
    + apply (Hmerged "$e1" {[ "@bob:example.org" := 150%N ]}
               {[ "@me:example.org" := 100%N ]}); reflexivity.
    + apply Hkept. reflexivity.
Defined.

Lemma pending_scan_remove_other keys room other event :
  other ≠ room →
  pending_scan
    (filter (λ k, k ≠ Encoded {| event_id := event; room_id := room |}) keys)
    other
  = pending_scan keys other.
Proof.
  intros Hne. induction keys as [|[[e r]|raw] keys IH]; simpl; [done| |].
  - rewrite filter_cons. case_decide as Hk; simpl.
    + by rewrite IH.
    + injection Hk as -> ->. by rewrite decide_False by done.
  - exact IH.
Qed.

Lemma pending_other_room_after_removals room other matches c :
  other ≠ room →
  pendingReceiptsEvents other
    (foldl (λ c m, removePendingReceipt room m c) c matches)
  = pendingReceiptsEvents other c.
Proof.
  intros Hne. revert c. induction matches as [|m l IH]; intros c; simpl.
  - done.
  - rewrite IH. unfold pendingReceiptsEvents, removePendingReceipt. simpl.
    by apply pending_scan_remove_other.
Qed.

Lemma filter_none {A} (P : A → Prop) `{∀ x, Decision (P x)} (l : list A) :
  (∀ x, x ∈ l → ¬ P x) → filter P l = [].
Proof.
  induction l as [|x l IH]; intros Hnot; [done|].
  rewrite filter_cons, decide_False by apply Hnot, list_elem_of_here.
  apply IH. intros y Hy. by apply Hnot, list_elem_of_further.
Qed.

Lemma event_read_same_receipts room user c c' :
  readReceiptsDb c' = readReceiptsDb c →
  ∀ e, event_read room user c' e = event_read room user c e.
Proof.
  intros Hsame e. unfold event_read, stored_receipts. by rewrite Hsame.
Qed.

(** X10: after a notification pass for a room a second pass has nothing left
    to signal and changes nothing; the pass never touches the events pending
    for another room. *)
Theorem notifyForReadReceipts_twice (room local_user : string) (c : Cache) :
  (∀ e, e ∈ pendingReceiptsEvents room c →
        ∃ m, stored_receipts room e c = Ret m) →
  ∃ c' signal,
    notifyForReadReceipts room local_user c = Ret (c', signal) ∧
    notifyForReadReceipts room local_user c' = Ret (c', None) ∧
    ∀ other, other ≠ room →
             pendingReceiptsEvents other c' = pendingReceiptsEvents other c.
Proof.
  intros Hdec. unfold notifyForReadReceipts at 1.
  rewrite filterReadEvents_filter by done. simpl.
  set (read := filter (λ e, event_read room local_user c e)
                 (pendingReceiptsEvents room c)).
  set (c' := foldl (λ c m, removePendingReceipt room m c) c read).
  destruct (pending_after_removals room read c) as [Hpending Hsame].
  fold c' in Hpending, Hsame.
  exists c', (newReadReceipts room read). split; [done|]. split.
  - unfold notifyForReadReceipts.
    assert (Hnone : filter (λ e, event_read room local_user c' e)
                      (pendingReceiptsEvents room c') = []).
    { rewrite Hpending. unfold read.
      rewrite filter_not_in_filter_sub by done.
      rewrite list_filter_filter.
      apply filter_none. intros x _ [Hread Hnot].
      by rewrite (event_read_same_receipts room local_user c c' Hsame x)
        in Hread. }
    rewrite filterReadEvents_filter.
    + by rewrite Hnone.
    + intros e He. rewrite Hpending in He.
      apply list_elem_of_filter in He as [_ He].
      destruct (Hdec e He) as [m Hm]. exists m.
      unfold stored_receipts in *. by rewrite Hsame.
  - intros other Hne. by apply pending_other_room_after_removals.
Qed.

Lemma notifyForReadReceipts_twice_witness :
  ∃ c' signal,
    notifyForReadReceipts "!r:example.org" "@me:example.org" store_with_pending
    = Ret (c', signal) ∧
    notifyForReadReceipts "!r:example.org" "@me:example.org" c'
    = Ret (c', None).
Proof.
  destruct (notifyForReadReceipts_twice "!r:example.org" "@me:example.org"
              store_with_pending) as (c' & signal & Hfirst & Hsecond & _).
  - intros e He.
    change (e ∈ ["$e1"; "$e2"; "$e3"]) in He. rewrite !elem_of_cons in He.
    destruct He as [->|[->|[->|He]]]; [eexists; reflexivity ..|inversion He].
  - exists c', signal. split; [exact Hfirst|exact Hsecond].
Defined.

(** ** Retention, continued *)



Lemma NoDup_take_ordered_keys {V} n (db : gmap N V) :
  NoDup (take n (ordered_entries newest_first db)).*1.
Proof.
  pose proof (NoDup_ordered_keys newest_first db) as Hnd.
  rewrite <- (take_drop n (ordered_entries newest_first db)), fmap_app in Hnd.
  by apply NoDup_app in Hnd as (Hnd & _ & _).
Qed.




(** X12: [removeRoom] (the overload without a transaction) takes the room out
    of the rooms table only: the other rooms and the room's message table
    stay, and since [deleteOldMessages] goes by the rooms table, the
    messages of the removed room are no longer pruned. *)
Theorem removeRoom_keeps_messages (room : string) (c : Cache) :
  (room ∉ getRoomIds (removeRoom room c)) ∧
  (∀ other, other ≠ room →
            roomsDb (removeRoom room c) !! other = roomsDb c !! other) ∧
  messages_of room (removeRoom room c) = messages_of room c ∧
  messages_of room (deleteOldMessages (removeRoom room c))
  = messages_of room c.
Proof.
  split_and!.
  - rewrite elem_of_getRoomIds. unfold removeRoom. simpl.
    rewrite lookup_delete_eq. by intros [? ?].
  - intros other Hne. unfold removeRoom. simpl.
    by rewrite lookup_delete_ne by done.
  - done.
  - rewrite messages_of_deleteOldMessages. rewrite decide_False; [done|].
    unfold removeRoom. simpl. rewrite lookup_delete_eq. by intros [? ?].
Qed.

Lemma removeRoom_keeps_messages_witness :
  roomsDb (removeRoom "!r:example.org" store_with_rooms) !! "!a:example.org"
  = roomsDb store_with_rooms !! "!a:example.org".
Proof.
  destruct (removeRoom_keeps_messages "!r:example.org" store_with_rooms)
    as (_ & Hother & _).
  apply Hother. discriminate.
Defined.

(** ** Timeline, continued *)

Lemma restorable_decodes v : is_Some (restorable v) → decodes v.
Proof.
  destruct v as [[[[e|raw]|] [[t|raw']|]]|raw]; simpl; by intros [? ?].
Qed.

Lemma newer_sorted_unique {V} (l1 l2 : list (N * V)) :
  StronglySorted newer l1 → StronglySorted newer l2 → l1 ≡ₚ l2 → l1 = l2.
Proof.
  apply StronglySorted_unique_strong.
  intros x1 x2 _ _. unfold newer. lia.
Qed.

Lemma ordered_entries_of_sorted {V} (l : list (N * V)) :
  StronglySorted newer l →
  ordered_entries newest_first (list_to_map l : gmap N V) = l.
Proof.
  intros Hsorted.
  assert (NoDup l.*1) as Hnd.
  { clear -Hsorted. induction Hsorted as [|x l Hs IH Hall]; [constructor|].
    rewrite fmap_cons. apply NoDup_cons. split; [|done].
    intros (y & Heq & Hy)%list_elem_of_fmap.
    rewrite Forall_forall in Hall. specialize (Hall y Hy).
    unfold newer in Hall. lia. }
  apply newer_sorted_unique; [apply newest_first_sorted|done|].
  rewrite ordered_entries_perm. by apply map_to_list_to_map.
Qed.

Lemma restorable_entries_take n (l : list (N * blob message_json)) :
  (∀ kv, kv ∈ l → is_Some (restorable kv.2)) →
  restorable_entries (take n l) = take n (restorable_entries l).
Proof.
  unfold restorable_entries. revert n.
  induction l as [|x l IH]; intros n Hall; [by destruct n|].
  destruct n as [|n]; [done|]. simpl.
  destruct (Hall x) as [y Hy]; [apply list_elem_of_here|].
  rewrite Hy. simpl. f_equal. apply IH.
  intros kv Hkv. by apply Hall, list_elem_of_further.
Qed.

(** X13: retention does not change what [getTimelineMessages] returns: when
    every stored message of a room has its event and token,
    the timeline read after [deleteOldMessages] is the timeline read
    before. *)
Theorem getTimelineMessages_after_retention (room : string) (c : Cache) :
  (∀ k v, messages_of room c !! k = Some v → is_Some (restorable v)) →
  snd <$> getTimelineMessages room (deleteOldMessages c)
  = snd <$> getTimelineMessages room c.
Proof.
  intros Hall.
  assert (Hdec : ∀ k v, messages_of room c !! k = Some v → decodes v)
    by (intros; by eapply restorable_decodes, Hall).
  destruct (getTimelineMessages_result room c Hdec) as (c1 & -> & _).
  pose proof (newest_first_sorted (messages_of room c)) as Hsorted.
  assert (Hdec' : ∀ k v, messages_of room (deleteOldMessages c) !! k = Some v →
                         decodes v).
  { rewrite messages_of_deleteOldMessages. case_decide; [|done].
    unfold retained. case_decide; [done|]. rewrite delete_beyond_cap_take.
    intros k v Hk.
    apply elem_of_list_to_map in Hk; [|apply NoDup_take_ordered_keys].
    apply Hdec with k, elem_of_ordered_entries with newest_first.
    rewrite <- (take_drop MAX_RESTORED_MESSAGES
                  (ordered_entries newest_first (messages_of room c))).
    apply elem_of_app. by left. }
  destruct (getTimelineMessages_result room (deleteOldMessages c) Hdec')
    as (c2 & -> & _).
  assert (Heq :
    take MAX_RESTORED_MESSAGES
      (restorable_entries
         (ordered_entries newest_first
            (messages_of room (deleteOldMessages c))))
    = take MAX_RESTORED_MESSAGES
        (restorable_entries
           (ordered_entries newest_first (messages_of room c)))).
  { rewrite messages_of_deleteOldMessages. case_decide; [|done].
    unfold retained. case_decide; [done|]. rewrite delete_beyond_cap_take.
    rewrite ordered_entries_of_sorted by by apply StronglySorted_take.
    rewrite restorable_entries_take.
    - by rewrite take_take, Nat.min_id.
    - intros [k v] Hkv%elem_of_ordered_entries. by apply (Hall k). }
  simpl. by rewrite Heq.
Qed.

Lemma getTimelineMessages_after_retention_witness :
  snd <$> getTimelineMessages "!r:example.org"
            (deleteOldMessages (store_with_messages 91))
  = snd <$> getTimelineMessages "!r:example.org" (store_with_messages 91).
Proof.
  apply getTimelineMessages_after_retention.
  apply (bool_decide_unpack
           (map_Forall (λ (_ : N) v, is_Some (restorable v))
              (messages_of "!r:example.org" (store_with_messages 91)))).
  vm_compute. exact I.
Defined.

Section last_message_facts.
Context {DescInfo : Type}.
Variable no_description : DescInfo.
Variable getMessageDescription : TimelineEvent → string → string → DescInfo.

Lemma last_message_scan_ok (l : list (N * blob message_json)) local_user room :
  (∀ kv, kv ∈ l → event_decodes kv.2) →
  last_message_scan no_description getMessageDescription l local_user room
  = Ret (match omap (λ kv, described kv.2) l with
         | [] => no_description
         | event :: _ => getMessageDescription event local_user room
         end).
Proof.
  induction l as [|[ts msg] l IH]; intros Hdec; [done|].
  assert (Hmsg : event_decodes msg) by apply (Hdec (ts, msg)), list_elem_of_here.
  simpl. destruct msg as [[[[event|raw]|] token]|raw]; simpl in *; try done.
  apply IH. intros kv Hkv. by apply Hdec, list_elem_of_further.
Qed.

Lemma newest_described_first (l : list (N * blob message_json)) k v event :
  StronglySorted newer l →
  (k, v) ∈ l →
  described v = Some event →
  (∀ k' v', (k', v') ∈ l → is_Some (described v') → (k' ≤ k)%N) →
  ∃ rest, omap (λ kv, described kv.2) l = event :: rest.
Proof.
  induction 1 as [|[k0 v0] l Hs IH Hall]; intros Hin Hev Hmax;
    [inversion Hin|].
  simpl. destruct (described v0) as [e0|] eqn:Hv0.
  - exists (omap (λ kv, described kv.2) l). f_equal.
    apply elem_of_cons in Hin as [[= <- <-]|Hin]; [congruence|].
    rewrite Forall_forall in Hall. specialize (Hall _ Hin).
    unfold newer in Hall. simpl in Hall.
    assert (k0 ≤ k)%N; [|lia].
    apply (Hmax k0 v0); [apply list_elem_of_here|by rewrite Hv0].
  - apply elem_of_cons in Hin as [[= <- <-]|Hin]; [congruence|].
    apply IH; [done..|].
    intros k' v' Hin'. apply Hmax. by apply list_elem_of_further.
Qed.

(** X14: [getLastMessageInfo] describes the most recent stored message that
    has an event member, passing over newer entries without one; it returns
    the empty description when the room has no such message. *)
Theorem getLastMessageInfo_newest (room local_user : string) (c : Cache) :
  (∀ k v, messages_of room c !! k = Some v → event_decodes v) →
  ∃ c' info,
    getLastMessageInfo no_description getMessageDescription room local_user c
    = Ret (c', info) ∧
    messages_of room c' = messages_of room c ∧
    ((∀ k v, messages_of room c !! k = Some v → described v = None) →
     info = no_description) ∧
    (∀ k v event,
       messages_of room c !! k = Some v →
       described v = Some event →
       (∀ k' v', messages_of room c !! k' = Some v' →
                 is_Some (described v') → (k' ≤ k)%N) →
       info = getMessageDescription event local_user room).
Proof.
  intros Hdec.
  set (l := ordered_entries newest_first (messages_of room c)).
  assert (Hscan : last_message_scan no_description getMessageDescription l
                    local_user room
                  = Ret (match omap (λ kv, described kv.2) l with
                         | [] => no_description
                         | event :: _ =>
                             getMessageDescription event local_user room
                         end)).
  { apply last_message_scan_ok.
    intros [k v] Hkv%elem_of_ordered_entries. by apply (Hdec k). }
  assert (Hrun : ∃ c',
    getLastMessageInfo no_description getMessageDescription room local_user c
    = Ret (c', match omap (λ kv, described kv.2) l with
               | [] => no_description
               | event :: _ => getMessageDescription event local_user room
               end) ∧
    messages_of room c' = messages_of room c).
  { unfold getLastMessageInfo, open_table. unfold l, messages_of in *.
    destruct (messagesDbs c !! room) as [db|] eqn:Hdb; simpl in *.
    - case_decide as Hsize.
      + apply map_size_empty_inv in Hsize. subst db.
        rewrite ordered_entries_empty. simpl.
        eexists. split; [reflexivity|]. simpl. by rewrite Hdb.
      + rewrite Hscan. simpl.
        eexists. split; [reflexivity|]. simpl. by rewrite Hdb.
    - rewrite map_size_empty, ordered_entries_empty. simpl.
      eexists. split; [reflexivity|]. simpl. by rewrite lookup_insert_eq. }
  destruct Hrun as (c' & Hrun & Hsame).
  eexists c', _. split; [exact Hrun|]. split; [done|]. split.
  - intros Hnone.
    assert (omap (λ kv, described kv.2) l = []) as ->; [|done].
    apply elem_of_nil_inv. intros e ([k v] & Hkv & He)%list_elem_of_omap.
    apply elem_of_ordered_entries in Hkv. simpl in He.
    by rewrite (Hnone k v Hkv) in He.
  - intros k v event Hk Hev Hmax.
    destruct (newest_described_first l k v event) as [rest ->]; try done.
    + apply newest_first_sorted.
    + by apply elem_of_ordered_entries.
    + intros k' v' Hin%elem_of_ordered_entries. by apply Hmax.
Qed.
End last_message_facts.

Lemma getLastMessageInfo_newest_witness :
  ∃ c' info,
    getLastMessageInfo "none" (λ event _ _, event_json event)
      "!r:example.org" "@me:example.org" store_with_partial_message
    = Ret (c', info) ∧
    info = "third".
Proof.
  destruct (getLastMessageInfo_newest "none" (λ event _ _, event_json event)
              "!r:example.org" "@me:example.org" store_with_partial_message)
    as (c' & info & Hrun & _ & _ & Hnewest).
  - apply (bool_decide_unpack
             (map_Forall (λ (_ : N) v, Is_true (event_decodes v))
                (messages_of "!r:example.org" store_with_partial_message))).
    vm_compute. exact I.
  - exists c', info. split; [exact Hrun|].
    apply (Hnewest 300%N (sample_message "third" "t3")
             {| event_json := "third" |}); [reflexivity|reflexivity|].
    apply (bool_decide_unpack
             (map_Forall (λ (k' : N) v', is_Some (described v') → (k' ≤ 300)%N)
                (messages_of "!r:example.org" store_with_partial_message))).
    vm_compute. exact I.
Defined.

Section incoming_timeline_facts.
Context {Event : Type}.
Variable isStateEvent : Event → bool.
Variable isRedaction : Event → bool.
Variable event_timestamp : Event → N.
Variable serialize_event : Event → TimelineEvent.

Lemma save_event_other prev_batch events db k :
  (∀ e, e ∈ events → is_message isStateEvent isRedaction e → event_timestamp e ≠ k) →
  foldl (save_event isStateEvent isRedaction event_timestamp
           serialize_event prev_batch) db events !! k = db !! k.
Proof.
  revert db. induction events as [|x events IH]; intros db Hk; [done|].
  simpl. rewrite IH by (intros; apply Hk; [by apply list_elem_of_further|done]).
  unfold save_event.
  destruct (isStateEvent x) eqn:Hs; [done|].
  destruct (isRedaction x) eqn:Hr; [done|].
  apply lookup_insert_ne, Hk; [apply list_elem_of_here|].
  unfold is_message. by rewrite Hs, Hr.
Qed.

Lemma save_event_stored prev_batch events db e :
  NoDup (event_timestamp <$> filter (λ e, is_message isStateEvent isRedaction e) events) →
  e ∈ events → is_message isStateEvent isRedaction e →
  foldl (save_event isStateEvent isRedaction event_timestamp
           serialize_event prev_batch) db events !! event_timestamp e
  = Some (stored_message serialize_event e prev_batch).
Proof.
  revert db. induction events as [|x events IH]; intros db Hnd Hin Hmsg;
    [inversion Hin|].
  simpl. rewrite filter_cons in Hnd.
  apply elem_of_cons in Hin as [->|Hin].
  - rewrite decide_True, fmap_cons in Hnd by done.
    apply NoDup_cons in Hnd as [Hfresh _].
    rewrite save_event_other.
    + unfold save_event, is_message in *.
      destruct (isStateEvent x); [done|]. destruct (isRedaction x); [done|].
      apply lookup_insert_eq.
    + intros e' He' Hmsg' Heq. apply Hfresh. rewrite <- Heq.
      apply list_elem_of_fmap_2, list_elem_of_filter. done.
  - apply IH; [|done..].
    case_decide; [|done]. rewrite fmap_cons in Hnd.
    by apply NoDup_cons in Hnd as [_ Hnd].
Qed.

Lemma save_event_from_batch prev_batch events k v :
  NoDup (event_timestamp <$> filter (λ e, is_message isStateEvent isRedaction e) events) →
  foldl (save_event isStateEvent isRedaction event_timestamp
           serialize_event prev_batch) ∅ events !! k = Some v →
  ∃ e, e ∈ filter (λ e, is_message isStateEvent isRedaction e) events ∧ k = event_timestamp e ∧
       v = stored_message serialize_event e prev_batch.
Proof.
  intros Hnd Hk.
  destruct (decide (k ∈ event_timestamp <$> filter (λ e, is_message isStateEvent isRedaction e) events))
    as [Hin|Hnot].
  - apply list_elem_of_fmap in Hin as (e & -> & He).
    exists e. split; [done|]. split; [done|].
    apply list_elem_of_filter in He as [Hmsg He].
    rewrite save_event_stored in Hk by done. congruence.
  - rewrite save_event_other in Hk; [by rewrite lookup_empty in Hk|].
    intros e He Hmsg <-. apply Hnot.
    apply list_elem_of_fmap_2, list_elem_of_filter. done.
Qed.

Lemma messages_of_saveTimelineMessages room events prev_batch c :
  messages_of room c = ∅ →
  messages_of room
    (saveTimelineMessages isStateEvent isRedaction event_timestamp
       serialize_event room events prev_batch c)
  = foldl (save_event isStateEvent isRedaction event_timestamp
           serialize_event prev_batch) ∅ events.
Proof.
  unfold messages_of, saveTimelineMessages, open_table.
  destruct (messagesDbs c !! room) as [db|]; simpl.
  - intros ->. by rewrite lookup_insert_eq.
  - intros _. by rewrite lookup_insert_eq.
Qed.
End incoming_timeline_facts.

Lemma foldl_last_token (l : list (N * (TimelineEvent * string))) a p :
  (∀ x, x ∈ l → x.2.2 = p) → l ≠ [] →
  foldl (λ _ x, x.2.2) a l = p.
Proof.
  revert a. induction l as [|x l IH]; intros a Hall Hne; [done|]. simpl.
  destruct l as [|y l]; [by apply Hall, list_elem_of_here|].
  apply IH; [|done]. intros z Hz. by apply Hall, list_elem_of_further.
Qed.

Section timeline_roundtrip.
Context {Event : Type}.
Variable isStateEvent : Event → bool.
Variable isRedaction : Event → bool.
Variable event_timestamp : Event → N.
Variable serialize_event : Event → TimelineEvent.

Lemma sort_by_timestamp (msgs : list Event) :
  NoDup (event_timestamp <$> msgs) →
  ∃ sorted,
    sorted ≡ₚ msgs ∧
    StronglySorted (λ a b, (event_timestamp a < event_timestamp b)%N) sorted.
Proof.
  intros Hnd.
  set (R := λ a b : Event, (event_timestamp a ≤ event_timestamp b)%N).
  assert (Total R) by (intros a b; unfold R; lia).
  assert (Transitive R) by (intros a b d; unfold R; lia).
  assert (∀ a b, Decision (R a b)) by (intros a b; unfold R; apply _).
  exists (merge_sort R msgs).
  pose proof (merge_sort_Permutation R msgs) as Hperm.
  split; [done|].
  rewrite <- Hperm in Hnd. clear Hperm.
  pose proof (StronglySorted_merge_sort R msgs) as Hsorted.
  induction Hsorted as [|x l Hs IH Hall]; [constructor|].
  rewrite fmap_cons in Hnd. apply NoDup_cons in Hnd as [Hx Hnd].
  constructor; [by apply IH|].
  apply Forall_forall. intros y Hy.
  rewrite Forall_forall in Hall. specialize (Hall y Hy). unfold R in Hall.
  assert (event_timestamp y ≠ event_timestamp x); [|lia].
  intros Heq. apply Hx. rewrite <- Heq. by apply list_elem_of_fmap_2.
Qed.

(** X15: what [saveTimelineMessages] stores is what [getTimelineMessages]
    returns: for a room without stored messages and a batch with at most 30
    message events of distinct time stamps, the timeline read afterwards
    consists of the batch's message events (no state event, no redaction) in
    ascending order of their time stamps, with the batch's token. *)
Theorem saveTimelineMessages_roundtrip (room : string) (events : list Event)
    (token : string) (c : Cache) :
  messages_of room c = ∅ →
  NoDup (event_timestamp
           <$> filter (λ e, is_message isStateEvent isRedaction e) events) →
  (length (filter (λ e, is_message isStateEvent isRedaction e) events)
   ≤ MAX_RESTORED_MESSAGES)%nat →
  ∃ c' timeline sorted,
    getTimelineMessages room
      (saveTimelineMessages isStateEvent isRedaction event_timestamp
         serialize_event room events token c)
    = Ret (c', timeline) ∧
    sorted ≡ₚ filter (λ e, is_message isStateEvent isRedaction e) events ∧
    StronglySorted (λ a b, (event_timestamp a < event_timestamp b)%N) sorted ∧
    timeline_events timeline = serialize_event <$> sorted ∧
    (sorted ≠ [] → prev_batch timeline = token).
Proof.
  intros Hempty Hnd Hlen.
  set (msgs := filter (λ e, is_message isStateEvent isRedaction e) events) in *.
  set (c1 := saveTimelineMessages isStateEvent isRedaction event_timestamp
               serialize_event room events token c).
  pose proof (messages_of_saveTimelineMessages isStateEvent isRedaction
                event_timestamp serialize_event room events token c Hempty)
    as Htable.
  fold c1 in Htable.
  set (f := λ e : Event, (event_timestamp e, (serialize_event e, token))).
  assert (Hentries : ∀ k y,
    (k, y) ∈ restorable_entries
               (ordered_entries newest_first (messages_of room c1))
    ↔ ∃ e, e ∈ msgs ∧ (k, y) = f e).
  { intros k y. rewrite elem_of_restorable_entries, Htable. split.
    - intros (v & Hkv%elem_of_ordered_entries & Hv).
      destruct (save_event_from_batch isStateEvent isRedaction event_timestamp
                  serialize_event token events k v Hnd Hkv)
        as (e & He & -> & ->).
      exists e. split; [done|]. simpl in Hv. by injection Hv as <-.
    - intros (e & He & [= -> ->]).
      exists (stored_message serialize_event e token). split; [|done].
      apply elem_of_ordered_entries.
      apply list_elem_of_filter in He as [Hmsg He].
      by apply save_event_stored. }
  destruct (sort_by_timestamp msgs Hnd) as (sorted & Hperm & Hsorted).
  assert (Hsame : restorable_entries
                    (ordered_entries newest_first (messages_of room c1))
                  = reverse (f <$> sorted)).
  { apply newer_sorted_unique.
    - apply restorable_entries_sorted, newest_first_sorted.
    - apply (StronglySorted_reverse (λ a b : N * (TimelineEvent * string),
                                       (a.1 < b.1)%N)).
      clear -Hsorted. induction Hsorted as [|x l Hs IH Hall]; [constructor|].
      rewrite fmap_cons. constructor; [done|].
      apply Forall_fmap. eapply Forall_impl; [exact Hall|]. by intros.
    - apply NoDup_Permutation.
      + assert (NoDup (restorable_entries
                         (ordered_entries newest_first (messages_of room c1))).*1)
          as Hkeys.
        { pose proof (restorable_entries_sorted _
                        (newest_first_sorted (messages_of room c1))) as Hs.
          clear -Hs. induction Hs as [|x l Hs IH Hall]; [constructor|].
          rewrite fmap_cons. apply NoDup_cons. split; [|done].
          intros (y & Heq & Hy)%list_elem_of_fmap.
          rewrite Forall_forall in Hall. specialize (Hall y Hy).
          unfold newer in Hall. lia. }
        by apply NoDup_fmap_1 in Hkeys.
      + rewrite reverse_Permutation. rewrite <- Hperm in Hnd.
        apply (NoDup_fmap_1 fst). by rewrite <- list_fmap_compose.
      + intros [k y]. rewrite Hentries, elem_of_reverse, list_elem_of_fmap.
        split; intros (e & H1 & H2); exists e.
        * split; [done|]. by rewrite Hperm.
        * split; [|done]. by rewrite <- Hperm. }
  destruct (getTimelineMessages_result room c1) as (c' & Hrun & _).
  { rewrite Htable. intros k v Hk.
    by destruct (save_event_from_batch isStateEvent isRedaction event_timestamp
                   serialize_event token events k v Hnd Hk)
      as (e & _ & _ & ->). }
  rewrite Hsame in Hrun.
  assert (Hall : take MAX_RESTORED_MESSAGES (reverse (f <$> sorted))
                 = reverse (f <$> sorted)).
  { apply take_ge. rewrite length_reverse, length_fmap, Hperm. done. }
  rewrite Hall in Hrun.
  eexists c', _, sorted. split; [exact Hrun|]. simpl. split_and!; try done.
  - rewrite fmap_reverse, reverse_involutive, <- list_fmap_compose. done.
  - intros Hne. apply foldl_last_token.
    + intros x Hx. rewrite elem_of_reverse in Hx.
      by apply list_elem_of_fmap in Hx as (e & -> & _).
    + intros Hrev. apply Hne. apply (f_equal length) in Hrev.
      rewrite length_reverse, length_fmap in Hrev. by destruct sorted.
Qed.
End timeline_roundtrip.

Lemma saveTimelineMessages_roundtrip_witness :
  ∃ c' timeline,
    getTimelineMessages "!r:example.org"
      (saveTimelineMessages sample_is_state sample_is_redaction sample_event_ts
         sample_serialize "!r:example.org" sample_batch "t1" fresh_cache)
    = Ret (c', timeline) ∧
    prev_batch timeline = "t1" ∧
    ∃ sorted, timeline_events timeline = sample_serialize <$> sorted ∧
              length sorted = 3.
Proof.
  destruct (saveTimelineMessages_roundtrip sample_is_state sample_is_redaction
              sample_event_ts sample_serialize "!r:example.org" sample_batch
              "t1" fresh_cache)
    as (c' & timeline & sorted & Hrun & Hperm & _ & Hevents & Htoken).
  - reflexivity.
  - apply (bool_decide_unpack _). vm_compute. exact I.
  - vm_compute. lia.
  - assert (length sorted = 3) as Hlen by (by rewrite Hperm).
    exists c', timeline. split; [exact Hrun|]. split.
    + apply Htoken. intros ->. discriminate.
    + exists sorted. split; [exact Hevents|exact Hlen].
Defined.

Example saveTimelineMessages_sample :
  (λ r, timeline_events r.2)
    <$> getTimelineMessages "!r:example.org"
          (saveTimelineMessages sample_is_state sample_is_redaction
             sample_event_ts sample_serialize "!r:example.org" sample_batch
             "t1" fresh_cache)
  = Ret [ {| event_json := "first" |}; {| event_json := "second" |};
          {| event_json := "third" |} ].
Proof. vm_compute. reflexivity. Qed.

(** ** Room members *)

Lemma members_scan_slice c (s e : N) l (i : N) acc :
  (N.of_nat (length l) + i < 2 ^ 64)%N →
  members_scan c s e l i acc
  = (acc ++ omap (room_member c)
              (take (N.to_nat e - N.to_nat (N.max s i))
                 (drop (N.to_nat s - N.to_nat i) l)))%list.
Proof.
  revert i acc. induction l as [|[user_id user_data] l IH]; intros i acc Hlen.
  - simpl. rewrite drop_nil, take_nil. simpl. by rewrite app_nil_r.
  - simpl in Hlen. simpl members_scan. unfold size_t_add.
    rewrite (N.mod_small (i + 1)) by lia.
    destruct (decide (i < s)%N) as [Hlt|Hge].
    + rewrite IH by lia.
      replace (N.to_nat s - N.to_nat i)%nat
        with (S (N.to_nat s - N.to_nat (i + 1)))%nat by lia.
      replace (N.max s (i + 1)) with (N.max s i) by lia. done.
    + destruct (decide (e ≤ i)%N) as [Hend|Hin].
      * replace (N.to_nat e - N.to_nat (N.max s i))%nat with 0%nat by lia.
        simpl. by rewrite app_nil_r.
      * rewrite IH by lia.
        replace (N.to_nat s - N.to_nat i)%nat with 0%nat by lia.
        replace (N.to_nat s - N.to_nat (i + 1))%nat with 0%nat by lia.
        replace (N.to_nat e - N.to_nat (N.max s i))%nat
          with (S (N.to_nat e - N.to_nat (N.max s (i + 1))))%nat by lia.
        rewrite !drop_0. simpl take.
        change (omap (room_member c) ((user_id, user_data) :: ?l))
          with (match room_member c (user_id, user_data) with
                | Some y => y :: omap (room_member c) l
                | None => omap (room_member c) l
                end).
        unfold room_member at 2. simpl.
        destruct user_data as [tmp|raw]; simpl; [|done].
        by rewrite <- app_assoc.
Qed.

(** X16: [getMembers] returns one page of the room's member list: when
    [startIndex + len] does not overflow [size_t], the entries made of the
    rows [startIndex .. startIndex + len - 1] of the members table in key
    order, a row that does not parse giving no entry (and no replacement from
    a later row); when the sum overflows, nothing. *)
Theorem getMembers_page (db : gmap string (blob Member.MemberInfo))
    (startIndex len : N) (c : Cache) :
  (startIndex < 2 ^ 64)%N → (len < 2 ^ 64)%N →
  (N.of_nat (size db) < 2 ^ 64)%N →
  ((startIndex + len < 2 ^ 64)%N →
   getMembers db startIndex len c
   = omap (room_member c)
       (take (N.to_nat len)
          (drop (N.to_nat startIndex) (ordered_entries bytes_le db)))) ∧
  ((2 ^ 64 ≤ startIndex + len)%N → getMembers db startIndex len c = []).
Proof.
  intros Hstart Hlen Hsize. unfold getMembers.
  rewrite members_scan_slice
    by (rewrite length_ordered_entries; lia).
  rewrite app_nil_l, N.max_0_r, Nat.sub_0_r.
  pose proof (length_ordered_entries bytes_le db) as Hrows.
  split; intros Hsum; unfold size_t_add.
  - rewrite N.mod_small by lia. f_equal.
    destruct (decide (startIndex + len ≤ N.of_nat (size db))%N) as [Hle|Hgt].
    + f_equal. lia.
    + rewrite !take_ge; [done | |]; rewrite length_drop, Hrows; lia.
  - assert ((startIndex + len) mod 2 ^ 64 = startIndex + len - 2 ^ 64)%N
      as ->.
    { symmetry. apply (N.mod_unique _ _ 1%N); lia. }
    replace (N.to_nat (N.min (startIndex + len - 2 ^ 64) (N.of_nat (size db)))
             - N.to_nat startIndex)%nat with 0%nat by lia.
    done.
Qed.

Lemma getMembers_page_witness :
  getMembers sample_members 1 2 fresh_cache
  = [ {| member_user_id := "@carol:example.org";
         member_display_name := "Carol";
         member_avatar := EmptyString |} ] ∧
  getMembers sample_members 1 (2 ^ 64 - 1) fresh_cache = [].
Proof.
  destruct (getMembers_page sample_members 1 2 fresh_cache) as (Hpage & _);
    [reflexivity..|].
  destruct (getMembers_page sample_members 1 (2 ^ 64 - 1) fresh_cache)
    as (_ & Hwrap); [reflexivity..|].
  split.
  - rewrite Hpage by reflexivity. vm_compute. reflexivity.
  - apply Hwrap. vm_compute. discriminate.
Defined.

(** ** The displayed name of a room *)

Lemma to_int_small (n : nat) :
  (Z.of_nat n < 2 ^ 31)%Z → to_int (N.of_nat n) = Z.of_nat n.
Proof.
  intros Hn. unfold to_int. rewrite nat_N_Z.
  rewrite Z.mod_small by lia. lia.
Qed.

Lemma ordered_entries_pair `{Countable K} {V} (le : K → K → bool)
    (a b : K) (x y : V) :
  a ≠ b →
  ordered_entries le (<[a := x]> {[b := y]} : gmap K V) = [(a, x); (b, y)] ∨
  ordered_entries le (<[a := x]> {[b := y]} : gmap K V) = [(b, y); (a, x)].
Proof.
  intros Hab.
  assert (ordered_entries le (<[a := x]> {[b := y]} : gmap K V)
          ≡ₚ [(a, x); (b, y)]) as Hperm.
  { rewrite ordered_entries_perm, map_to_list_insert
      by (by rewrite lookup_singleton_ne).
    by rewrite map_to_list_singleton. }
  symmetry in Hperm. by apply Permutation_length_2_inv in Hperm.
Qed.

Lemma first_member_cases local_user (members : list (string * Member.MemberInfo)) :
  first_member local_user members = local_user ∨
  ∃ user info, (user, info) ∈ members ∧ user ≠ local_user ∧
               first_member local_user members = Member.name info.
Proof.
  induction members as [|[user info] members IH]; [by left|]. simpl.
  destruct (decide (user ≠ local_user)) as [Hne|Heq].
  - right. exists user, info. split; [apply list_elem_of_here|done].
  - destruct IH as [IH|(user' & info' & Hin & Hne & IH)]; [by left|].
    right. exists user', info'. split; [by apply list_elem_of_further|done].
Qed.

Lemma name_members_scan_from entries ii members user info :
  name_members_scan entries ii members !! user = Some info →
  members !! user = Some info ∨ (user, Encoded info) ∈ entries.
Proof.
  revert ii members.
  induction entries as [|[user_id member_data] entries IH];
    intros ii members Hin; [by left|].
  simpl in Hin. destruct (decide (ii < 3)%nat); [|by left].
  apply IH in Hin as [Hin|Hin]; [|by right; apply list_elem_of_further].
  destruct member_data as [m|raw]; simpl in Hin; [|by left].
  unfold emplace in Hin.
  destruct (members !! user_id) eqn:Hprev; [by left|].
  destruct (decide (user = user_id)) as [->|Hne].
  - rewrite lookup_insert_eq in Hin. injection Hin as ->.
    right. apply list_elem_of_here.
  - rewrite lookup_insert_ne in Hin by done. by left.
Qed.

Section room_name_facts.
Variable name_content : StateEvent → option string.
Variable alias_content : StateEvent → option string.
Variable and_others : string → Z → string.

Lemma getRoomName_cases local_user statesdb membersdb :
  getRoomName name_content alias_content and_others local_user statesdb
    membersdb
  = match stated name_content RoomName statesdb with
    | Some name => name
    | None =>
        match stated alias_content RoomCanonicalAlias statesdb with
        | Some alias => alias
        | None => members_name and_others local_user membersdb
        end
    end.
Proof.
  assert (alias_or_members_name alias_content and_others local_user statesdb
            membersdb
          = match stated alias_content RoomCanonicalAlias statesdb with
            | Some alias => alias
            | None => members_name and_others local_user membersdb
            end) as Halias.
  { unfold alias_or_members_name, stated.
    destruct (statesdb !! RoomCanonicalAlias) as [[msg|raw]|]; simpl; try done.
    destruct (alias_content msg) as [alias|]; [|done].
    by destruct (decide (alias ≠ EmptyString)), (decide (alias = EmptyString)). }
  unfold getRoomName, stated. rewrite Halias.
  destruct (statesdb !! RoomName) as [[msg|raw]|]; simpl; try done.
  destruct (name_content msg) as [name|]; [|done].
  by destruct (decide (name ≠ EmptyString)), (decide (name = EmptyString)).
Qed.

(** X17: the name event comes first, the alias second: a stored name event
    with a name that is not empty gives the room's name whatever the alias
    and the members are; a stored name event with an empty name is passed
    over, and a stored alias that is not empty is then the room's name. *)
Theorem getRoomName_stated (local_user : string)
    (statesdb : gmap string (blob StateEvent))
    (membersdb : gmap string (blob Member.MemberInfo))
    (event : StateEvent) (text : string) :
  text ≠ EmptyString →
  (statesdb !! RoomName = Some (Encoded event) →
   name_content event = Some text →
   getRoomName name_content alias_content and_others local_user statesdb
     membersdb = text) ∧
  (∀ event', statesdb !! RoomName = Some (Encoded event') →
     name_content event' = Some EmptyString →
     statesdb !! RoomCanonicalAlias = Some (Encoded event) →
     alias_content event = Some text →
     getRoomName name_content alias_content and_others local_user statesdb
       membersdb = text).
Proof.
  intros Htext. rewrite getRoomName_cases. unfold stated. split.
  - intros -> ->. by destruct (decide (text = EmptyString)).
  - intros event' -> -> -> ->. simpl.
    by destruct (decide (text = EmptyString)).
Qed.

(** X18: without a usable name and alias event, a room with one member whose
    entry parses is named after that member, also when it is the local user;
    a room of the local user and one other member, both entries parsing, is
    named after the other member; a room without members, or whose only
    member's entry does not parse, is the empty room. *)
Theorem getRoomName_small_room (local_user : string)
    (statesdb : gmap string (blob StateEvent)) :
  stated name_content RoomName statesdb = None →
  stated alias_content RoomCanonicalAlias statesdb = None →
  (∀ user info,
     getRoomName name_content alias_content and_others local_user statesdb
       {[ user := Encoded info ]} = Member.name info) ∧
  (∀ user me info, user ≠ local_user →
     getRoomName name_content alias_content and_others local_user statesdb
       (<[ local_user := Encoded me ]> {[ user := Encoded info ]})
     = Member.name info) ∧
  getRoomName name_content alias_content and_others local_user statesdb ∅
  = "Empty Room" ∧
  (∀ user raw,
     getRoomName name_content alias_content and_others local_user statesdb
       {[ user := Garbled raw ]} = "Empty Room").
Proof.
  intros Hname Halias. split_and!.
  - intros user info. rewrite getRoomName_cases, Hname, Halias.
    unfold members_name. rewrite map_size_singleton.
    rewrite ordered_entries_singleton. simpl.
    unfold emplace. rewrite lookup_empty, insert_empty.
    by rewrite ordered_entries_singleton.
  - intros user me info Hne. rewrite getRoomName_cases, Hname, Halias.
    unfold members_name.
    rewrite map_size_insert_None by (by rewrite lookup_singleton_ne).
    rewrite map_size_singleton.
    change (to_int (N.of_nat 2)) with 2%Z. simpl.
    assert (name_members_scan
              (ordered_entries bytes_le
                 (<[local_user := Encoded me]> {[user := Encoded info]})) 0 ∅
            = <[local_user := me]> {[user := info]}) as ->.
    { destruct (ordered_entries_pair bytes_le local_user user
                  (Encoded me : blob Member.MemberInfo) (Encoded info))
        as [-> | ->]; [done|..]; simpl; unfold emplace.
      - rewrite lookup_empty, insert_empty, lookup_singleton_ne by done.
        by apply insert_insert_ne.
      - rewrite lookup_empty, insert_empty, lookup_singleton_ne by done.
        done. }
    destruct (ordered_entries_pair bytes_le local_user user me info)
      as [-> | ->]; [done|..]; simpl.
    + destruct (decide (local_user ≠ local_user)); [done|].
      by destruct (decide (user ≠ local_user)).
    + by destruct (decide (user ≠ local_user)).
  - rewrite getRoomName_cases, Hname, Halias.
    unfold members_name. rewrite map_size_empty.
    by rewrite ordered_entries_empty.
  - intros user raw. rewrite getRoomName_cases, Hname, Halias.
    unfold members_name. rewrite map_size_singleton.
    rewrite ordered_entries_singleton. simpl.
    by rewrite ordered_entries_empty.
Qed.

(** X19: without a usable name and alias event, a room of three or more
    members (fewer than 2^31) is shown as [first] and [total] others, where
    [total] is the number of all rows of the members table, and [first] is
    the local user's id or the name of a stored member other than the local
    user. *)
Theorem getRoomName_group (local_user : string)
    (statesdb : gmap string (blob StateEvent))
    (membersdb : gmap string (blob Member.MemberInfo)) :
  stated name_content RoomName statesdb = None →
  stated alias_content RoomCanonicalAlias statesdb = None →
  (3 ≤ size membersdb)%nat → (Z.of_nat (size membersdb) < 2 ^ 31)%Z →
  ∃ first,
    getRoomName name_content alias_content and_others local_user statesdb
      membersdb
    = and_others first (Z.of_nat (size membersdb)) ∧
    (first = local_user ∨
     ∃ user info, membersdb !! user = Some (Encoded info) ∧
                  user ≠ local_user ∧ first = Member.name info).
Proof.
  intros Hname Halias Hmin Hmax.
  rewrite getRoomName_cases, Hname, Halias. unfold members_name.
  rewrite to_int_small by done.
  destruct (decide (Z.of_nat (size membersdb) = 1%Z)); [lia|].
  destruct (decide (Z.of_nat (size membersdb) = 2%Z)); [lia|].
  destruct (decide (2 < Z.of_nat (size membersdb))%Z); [|lia].
  eexists. split; [reflexivity|].
  destruct (first_member_cases local_user
              (ordered_entries bytes_le
                 (name_members_scan (ordered_entries bytes_le membersdb) 0 ∅)))
    as [Hlocal|(user & info & Hin & Hne & Hfirst)]; [by left|].
  right. exists user, info. split_and!; [|done..].
  apply elem_of_ordered_entries in Hin.
  apply name_members_scan_from in Hin as [Hin|Hin]; [by rewrite lookup_empty in Hin|].
  by apply elem_of_ordered_entries in Hin.
Qed.
End room_name_facts.

Lemma getRoomName_stated_witness :
  getRoomName sample_content sample_content sample_and_others
    "@me:example.org" sample_states sample_direct_chat
  = "#room:example.org".
Proof.
  destruct (getRoomName_stated sample_content sample_content sample_and_others
              "@me:example.org" sample_states sample_direct_chat
              (OtherStateEvent "#room:example.org") "#room:example.org")
    as (_ & Halias); [discriminate|].
  apply (Halias (OtherStateEvent EmptyString)); reflexivity.
Defined.

Lemma getRoomName_small_room_witness :
  getRoomName sample_content sample_content sample_and_others
    "@me:example.org" ∅ sample_direct_chat
  = "Alice".
Proof.
  destruct (getRoomName_small_room sample_content sample_content
              sample_and_others "@me:example.org" ∅)
    as (_ & Hdirect & _); [reflexivity..|].
  apply (Hdirect "@alice:example.org"
           {| Member.name := "Me"; Member.avatar_url := EmptyString |}
           {| Member.name := "Alice"; Member.avatar_url := "mxc://a" |}).
  discriminate.
Defined.

Lemma getRoomName_group_witness :
  ∃ first,
    getRoomName sample_content sample_content sample_and_others
      "@alice:example.org" ∅ sample_members
    = sample_and_others first 3 ∧
    (first = "@alice:example.org" ∨
     ∃ user info, sample_members !! user = Some (Encoded info) ∧
                  user ≠ "@alice:example.org" ∧ first = Member.name info).
Proof.
  apply (getRoomName_group sample_content sample_content sample_and_others
           "@alice:example.org" ∅ sample_members).
  - reflexivity.
  - reflexivity.
  - vm_compute. lia.
  - vm_compute. reflexivity.
Defined.

(** ** Rooms with state updates *)

Section state_updates_facts.
Context {Event StrippedEvent : Type}.
Variable containsStateUpdates : Event → bool.
Variable containsStrippedUpdates : StrippedEvent → bool.

Lemma existsb_elem_of {A} (f : A → bool) (l : list A) :
  existsb f l = true ↔ ∃ x, x ∈ l ∧ f x = true.
Proof.
  rewrite existsb_exists. by setoid_rewrite list_elem_of_In.
Qed.

Lemma elem_of_joined_with_updates
    (entries : list (string * JoinedRoom (Event := Event)))
    (rooms : list string) (room : string) :
  room ∈ foldl (joined_with_updates containsStateUpdates) rooms entries
  ↔ room ∈ rooms ∨
    ∃ r, (room, r) ∈ entries ∧
         ∃ e, e ∈ (state_events r ++ timeline_of_room r)%list ∧
              containsStateUpdates e = true.
Proof.
  revert rooms. induction entries as [|[id r] entries IH]; intros rooms; simpl.
  - split; [by left|]. intros [Hin|(r & Hin & _)]; [done|].
    by apply elem_of_nil in Hin.
  - rewrite IH. unfold joined_with_updates at 1. simpl.
    assert (existsb containsStateUpdates (state_events r)
            || existsb containsStateUpdates (timeline_of_room r) = true
            ↔ ∃ e, e ∈ (state_events r ++ timeline_of_room r)%list ∧
                   containsStateUpdates e = true) as Hany.
    { rewrite orb_true_iff, !existsb_elem_of. split.
      - intros [(e & He & Hf)|(e & He & Hf)]; exists e;
          (split; [apply elem_of_app|done]); [by left|by right].
      - intros (e & [He|He]%elem_of_app & Hf); [left|right]; by exists e. }
    destruct (existsb containsStateUpdates (state_events r)
              || existsb containsStateUpdates (timeline_of_room r)).
    + rewrite elem_of_app, list_elem_of_singleton.
      setoid_rewrite elem_of_cons. split.
      * intros [[Hin| ->]|(r' & Hin & He)]; [by left| |].
        -- right. exists r. split; [by left|]. by apply Hany.
        -- right. exists r'. split; [by right|done].
      * intros [Hin|(r' & [[= -> ->]|Hin] & He)].
        -- by left; left.
        -- by left; right.
        -- right. by exists r'.
    + setoid_rewrite elem_of_cons. split.
      * intros [Hin|(r' & Hin & He)]; [by left|].
        right. exists r'. split; [by right|done].
      * intros [Hin|(r' & [[= -> ->]|Hin] & He)]; [by left| |].
        -- by apply Hany in He.
        -- right. by exists r'.
Qed.

Lemma elem_of_invited_with_updates
    (entries : list (string * list StrippedEvent))
    (rooms : list string) (room : string) :
  room ∈ foldl (invited_with_updates containsStrippedUpdates) rooms entries
  ↔ room ∈ rooms ∨
    ∃ r, (room, r) ∈ entries ∧
         ∃ e, e ∈ r ∧ containsStrippedUpdates e = true.
Proof.
  revert rooms. induction entries as [|[id r] entries IH]; intros rooms; simpl.
  - split; [by left|]. intros [Hin|(r & Hin & _)]; [done|].
    by apply elem_of_nil in Hin.
  - rewrite IH. unfold invited_with_updates at 1. simpl.
    pose proof (existsb_elem_of containsStrippedUpdates r) as Hany.
    destruct (existsb containsStrippedUpdates r).
    + rewrite elem_of_app, list_elem_of_singleton.
      setoid_rewrite elem_of_cons. split.
      * intros [[Hin| ->]|(r' & Hin & He)]; [by left| |].
        -- right. exists r. split; [by left|]. by apply Hany.
        -- right. exists r'. split; [by right|done].
      * intros [Hin|(r' & [[= -> ->]|Hin] & He)].
        -- by left; left.
        -- by left; right.
        -- right. by exists r'.
    + setoid_rewrite elem_of_cons. split.
      * intros [Hin|(r' & Hin & He)]; [by left|].
        right. exists r'. split; [by right|done].
      * intros [Hin|(r' & [[= -> ->]|Hin] & He)]; [by left| |].
        -- by apply Hany in He.
        -- right. by exists r'.
Qed.

(** X20: [roomsWithStateUpdates] lists exactly the joined rooms with a state
    update among the events of their state section or of their timeline and
    the invited rooms with a state update among their stripped events. *)
Theorem roomsWithStateUpdates_lists (res : SyncRooms) (room : string) :
  room ∈ roomsWithStateUpdates containsStateUpdates containsStrippedUpdates res
  ↔ (∃ r, join res !! room = Some r ∧
          ∃ e, e ∈ (state_events r ++ timeline_of_room r)%list ∧
               containsStateUpdates e = true) ∨
    (∃ r, invite res !! room = Some r ∧
          ∃ e, e ∈ r ∧ containsStrippedUpdates e = true).
Proof.
  unfold roomsWithStateUpdates.
  rewrite elem_of_invited_with_updates, elem_of_joined_with_updates.
  setoid_rewrite elem_of_ordered_entries.
  split.
  - intros [[Hin|Hjoin]|Hinvite]; [by apply elem_of_nil in Hin|by left|by right].
  - intros [Hjoin|Hinvite]; [by left; right|by right].
Qed.
End state_updates_facts.
